(** * rust-calc: lexer, parser and evaluator

    A shallow embedding of the three-stage pipeline of rust-calc
    (src/src/lexer, src/src/parser, src/src/evaluator): a finite-state
    tokenizer over a stream of Unicode scalar values, a precedence-climbing
    recursive-descent parser over a one-token-lookahead [Peekable] lexer, and
    a tree-walking evaluator with a [HashMap<String, N>] environment. *)

From Stdlib Require Import Ascii String ZArith QArith.
From Stdlib Require Import FunctionalExtensionality.
From stdpp Require Import base list gmap.

Import ListNotations.
Open Scope N_scope.

(* ------------------------------------------------------------------ *)
(** ** Characters *)

(** A Rust [char]: a Unicode scalar value. *)
Definition char := N.

(** [char::len_utf8] *)
Definition len_utf8 (c : char) : nat :=
  if c <? 128 then 1%nat
  else if c <? 2048 then 2%nat
  else if c <? 65536 then 3%nat
  else 4%nat.

(** [String::len]: the length in bytes of the UTF-8 encoding. *)
Definition str_len (s : list char) : nat :=
  fold_right (fun c n => (len_utf8 c + n)%nat) 0%nat s.

(** [char::is_ascii_digit] *)
Definition is_ascii_digit (c : char) : bool := (48 <=? c) && (c <=? 57).

(** [char::is_ascii_alphabetic] *)
Definition is_ascii_alphabetic (c : char) : bool :=
  ((65 <=? c) && (c <=? 90)) || ((97 <=? c) && (c <=? 122)).

(** [char::is_whitespace]: the Unicode [White_Space] property. *)
Definition is_whitespace (c : char) : bool :=
  ((9 <=? c) && (c <=? 13)) || (c =? 32) || (c =? 133) || (c =? 160)
  || (c =? 5760) || ((8192 <=? c) && (c <=? 8202))
  || (c =? 8232) || (c =? 8233) || (c =? 8239) || (c =? 8287) || (c =? 12288).

(** The characters of an ASCII string literal. *)
Definition str (s : string) : list char := map N_of_ascii (list_ascii_of_string s).

(* ------------------------------------------------------------------ *)
(** ** Tokens (src/src/lexer/token.rs) *)

Inductive Associativity := Left | Right.

Inductive Operator := Plus | Minus | Star | Slash | Caret.

(** [Operator::get] *)
Definition Operator_get (c : char) : option Operator :=
  if c =? 43 then Some Plus        (* '+' *)
  else if c =? 45 then Some Minus  (* '-' *)
  else if c =? 42 then Some Star   (* '*' *)
  else if c =? 47 then Some Slash  (* '/' *)
  else if c =? 94 then Some Caret  (* '^' *)
  else None.

(** [Operator::priority] (a [u8]; the values stay below 4). *)
Definition priority (op : Operator) : nat :=
  match op with
  | Plus => 1 | Minus => 1 | Star => 2 | Slash => 2 | Caret => 3
  end%nat.

(** [Operator::associativity] *)
Definition associativity (op : Operator) : Associativity :=
  match op with
  | Caret => Right
  | _ => Left
  end.

Inductive Punctuation := LeftParenthesis | RightParenthesis | Semicolon | Assignment.

(** [Punctuation::get] *)
Definition Punctuation_get (c : char) : option Punctuation :=
  if c =? 40 then Some LeftParenthesis       (* '(' *)
  else if c =? 41 then Some RightParenthesis (* ')' *)
  else if c =? 59 then Some Semicolon        (* ';' *)
  else if c =? 61 then Some Assignment       (* '=' *)
  else None.

(** [Token<N>]; a Rust [String] is a list of chars. *)
Inductive Token (Num : Type) :=
| TNumber (n : Num)
| TIdentifier (name : list char)
| TOperator (op : Operator)
| TPunctuation (p : Punctuation)
| TEof.
Arguments TNumber {Num} n.
Arguments TIdentifier {Num} name.
Arguments TOperator {Num} op.
Arguments TPunctuation {Num} p.
Arguments TEof {Num}.

(** [LexerError] (src/src/lexer/error.rs) *)
Inductive LexerError :=
| UnexpectedChar (c : char) (position : nat)
| InvalidNumber (buffer : list char) (position : nat).

(** Rust's [Result<T, E>]. *)
Inductive Result (T E : Type) := Ok (t : T) | Err (e : E).
Arguments Ok {T E} t.
Arguments Err {T E} e.

(* ------------------------------------------------------------------ *)
(** ** The lexer state machine (src/src/lexer/fsm.rs) *)

(** [FSMContext]: the source keeps [current_char] and the rest of the
    [Chars] iterator apart; here [chars] is [current_char] followed by the
    rest of the iterator, so [current_char] is [head chars]. *)
Record FSMContext := mkCtx {
  chars : list char;
  position : nat;
  buffer : list char
}.

(** [FSMContext::new] *)
Definition FSMContext_new (input : list char) : FSMContext :=
  mkCtx input 0 [].

(** [FSMContext::advance]; the loops below perform it inline on [chars]. *)
Definition advance_ctx (ctx : FSMContext) : FSMContext :=
  match chars ctx with
  | c :: rest => mkCtx rest (position ctx + len_utf8 c) (buffer ctx)
  | [] => ctx
  end.

(* ------------------------------------------------------------------ *)
(** ** Syntax trees and parser errors (src/src/parser/ast.rs, error.rs) *)

(** [UnaryOp<N>]; the [_Marker(PhantomData<N>)] variant only carries the
    type parameter and is never built. *)
Inductive UnaryOp := Negative | Positive.

(** [Expression<N>] *)
Inductive Expression (Num : Type) :=
| Number (n : Num)
| Var (name : list char) (* [Expression::Variable]; [Variable] is a keyword *)
| Unary (op : UnaryOp) (operand : Expression Num)
| Binary (lhs : Expression Num) (op : Operator) (rhs : Expression Num)
| Call (function_name : list char) (argument : Expression Num).
Arguments Number {Num} n.
Arguments Var {Num} name.
Arguments Unary {Num} op operand.
Arguments Binary {Num} lhs op rhs.
Arguments Call {Num} function_name argument.

(** [Statement<N>] *)
Inductive Statement (Num : Type) :=
| StAssignment (var_name : list char) (e : Expression Num)
| StExpression (e : Expression Num)
| StEmpty.
Arguments StAssignment {Num} var_name e.
Arguments StExpression {Num} e.
Arguments StEmpty {Num}.

(** [ParserError<N>] *)
Inductive ParserError (Num : Type) :=
| PE_LexerError (e : LexerError)
| PE_UnexpectedToken (t : Token Num)
| PE_UnexpectedEnd
| PE_InvalidAssignment.
Arguments PE_LexerError {Num} e.
Arguments PE_UnexpectedToken {Num} t.
Arguments PE_UnexpectedEnd {Num}.
Arguments PE_InvalidAssignment {Num}.

(** [EvaluatorError<N>] (rust-calc-lib/src/evaluator/error.rs) *)
Inductive EvaluatorError (Num : Type) :=
| EE_ParserError (e : ParserError Num)
| EE_UnexpectedError
| EE_OperationFailed (message : string)
| EE_UndefinedVariable (name : list char)
| EE_UnknownFunction (name : list char)
| EE_InvalidAssignment (name : list char).
Arguments EE_ParserError {Num} e.
Arguments EE_UnexpectedError {Num}.
Arguments EE_OperationFailed {Num} message.
Arguments EE_UndefinedVariable {Num} name.
Arguments EE_UnknownFunction {Num} name.
Arguments EE_InvalidAssignment {Num} name.

(* ------------------------------------------------------------------ *)
(** ** A concrete backend: exact rationals *)

Module QBackend.

(** The value of a run of ASCII digits, [None] on any other character. *)
Fixpoint digits_value (acc : Z) (cs : list char) : option Z :=
  match cs with
  | [] => Some acc
  | c :: rest =>
      if is_ascii_digit c then digits_value (10 * acc + (Z.of_N c - 48))%Z rest else None
  end.

(** Split at the first ['.']. *)
Fixpoint split_dot (cs : list char) : list char * option (list char) :=
  match cs with
  | [] => ([], None)
  | c :: rest =>
      if c =? 46 then ([], Some rest)
      else let (i, f) := split_dot rest in (c :: i, f)
  end.

(** Radix-10 parsing of [DIGIT+('.'DIGIT+)?] into an exact rational. *)
Definition from_str_radix (cs : list char) : option Q :=
  let (i, f) := split_dot cs in
  match i with
  | [] => None
  | _ =>
      match digits_value 0 i, f with
      | Some vi, None => Some (Qmake vi 1)
      | Some vi, Some ((_ :: _) as ds) =>
          match digits_value 0 ds with
          | Some vf =>
              let d := (10 ^ Z.of_nat (length ds))%Z in
              Some (Qmake (vi * d + vf) (Z.to_pos d))
          | None => None
          end
      | _, _ => None
      end
  end.

Definition zero : Q := 0%Q.
Definition sub : Q -> Q -> Q := Qminus.

Definition op_apply (op : Operator) (a b : Q) : Result Q string :=
  match op with
  | Plus => Ok (a + b)%Q
  | Minus => Ok (a - b)%Q
  | Star => Ok (a * b)%Q
  | Slash => if Qeq_bool b 0 then Err "division by zero"%string else Ok (a / b)%Q
  | Caret =>
      match b with
      | Qmake z 1 => Ok (Qpower a z)
      | _ => Err "non-integer exponent"%string
      end
  end.

(** A builtin table with the single function [double]. *)
Definition builtin_call (name : list char) (x : Q) : option Q :=
  if decide (name = str "double") then Some (2 * x)%Q else None.

End QBackend.

Section Pipeline.

(** [N::from_str_radix(_, 10)] of the numeric backend. *)
Variable Num : Type.
Variable from_str_radix : list char -> option Num.

(** The common tail of both [collect]s: parse the buffer or fail with
    [InvalidNumber(buffer, position)]. *)
Definition finish_number (ctx : FSMContext) : Result (Token Num * FSMContext) LexerError :=
  match from_str_radix (buffer ctx) with
  | Some n => Ok (TNumber n, ctx)
  | None => Err (InvalidNumber (buffer ctx) (position ctx))
  end.

(** The digit loop of [LexerFSM<DecimalPart>::collect]. *)
Fixpoint decimal_digits (cs : list char) (pos : nat) (buf : list char) : FSMContext :=
  match cs with
  | c :: rest =>
      if is_ascii_digit c then decimal_digits rest (pos + len_utf8 c) (buf ++ [c])
      else mkCtx cs pos buf
  | [] => mkCtx cs pos buf
  end.

(** [LexerFSM<DecimalPart>::collect] *)
Definition decimal_collect (ctx : FSMContext) : Result (Token Num * FSMContext) LexerError :=
  let initial_len := str_len (buffer ctx) in
  let ctx' := decimal_digits (chars ctx) (position ctx) (buffer ctx) in
  if Nat.eqb (str_len (buffer ctx')) initial_len
  then Err (InvalidNumber (buffer ctx') (position ctx'))
  else finish_number ctx'.

(** The loop of [LexerFSM<IntegerPart>::collect]. *)
Fixpoint integer_loop (cs : list char) (pos : nat) (buf : list char)
  : Result (Token Num * FSMContext) LexerError :=
  match cs with
  | c :: rest =>
      if is_ascii_digit c then integer_loop rest (pos + len_utf8 c) (buf ++ [c])
      else if c =? 46 (* '.' *) then
        decimal_collect (mkCtx rest (pos + len_utf8 c) (buf ++ [c]))
      else finish_number (mkCtx cs pos buf)
  | [] => finish_number (mkCtx cs pos buf)
  end.

(** [LexerFSM<IntegerPart>::collect]: the buffer is cleared first. *)
Definition integer_collect (ctx : FSMContext) : Result (Token Num * FSMContext) LexerError :=
  integer_loop (chars ctx) (position ctx) [].

(** The loop of [LexerFSM<InIdentifier>::collect]. *)
Fixpoint identifier_loop (cs : list char) (pos : nat) (buf : list char) : Token Num * FSMContext :=
  match cs with
  | c :: rest =>
      if negb (is_ascii_alphabetic c) && negb (is_ascii_digit c) && negb (c =? 95)
      then (TIdentifier buf, mkCtx cs pos buf)
      else identifier_loop rest (pos + len_utf8 c) (buf ++ [c])
  | [] => (TIdentifier buf, mkCtx cs pos buf)
  end.

(** [LexerFSM<InIdentifier>::collect] *)
Definition identifier_collect (ctx : FSMContext) : Token Num * FSMContext :=
  identifier_loop (chars ctx) (position ctx) [].

(** The loop of [LexerFSM<Start>::next_token]. *)
Fixpoint next_token_loop (cs : list char) (pos : nat) (buf : list char)
  : Result (Token Num * FSMContext) LexerError :=
  match cs with
  | [] => Ok (TEof, mkCtx cs pos buf)
  | c :: rest =>
      if is_whitespace c then next_token_loop rest (pos + len_utf8 c) buf
      else if is_ascii_digit c then integer_collect (mkCtx cs pos buf)
      else if is_ascii_alphabetic c then Ok (identifier_collect (mkCtx cs pos buf))
      else match Operator_get c with
           | Some op => Ok (TOperator op, mkCtx rest (pos + len_utf8 c) buf)
           | None =>
               match Punctuation_get c with
               | Some p => Ok (TPunctuation p, mkCtx rest (pos + len_utf8 c) buf)
               | None => Err (UnexpectedChar c pos)
               end
           end
  end.

(** [LexerFSM<Start>::next_token] *)
Definition next_token (ctx : FSMContext) : Result (Token Num * FSMContext) LexerError :=
  next_token_loop (chars ctx) (position ctx) (buffer ctx).

(** [Lexer]: [fsm : Option<LexerFSM<Start, N>>]. *)
Definition Lexer := option FSMContext.

(** [Lexer::new] *)
Definition Lexer_new (input : list char) : Lexer := Some (FSMContext_new input).

(** [Iterator for Lexer]: [next] returns the item and the new lexer. *)
Definition Lexer_next (l : Lexer) : option (Result (Token Num) LexerError) * Lexer :=
  match l with
  | None => (None, None)
  | Some fsm =>
      match next_token fsm with
      | Ok (TEof, _) => (None, None)
      | Ok (token, new_fsm) => (Some (Ok token), Some new_fsm)
      | Err e => (Some (Err e), None)
      end
  end.

(** [Lexer::collect], bounded by [fuel] calls of [next]. *)
Fixpoint lexer_collect (fuel : nat) (l : Lexer) : list (Result (Token Num) LexerError) :=
  match fuel with
  | O => []
  | S f =>
      match Lexer_next l with
      | (None, _) => []
      | (Some item, l') => item :: lexer_collect f l'
      end
  end.


(* ------------------------------------------------------------------ *)
(** ** The parser (src/src/parser/mod.rs) *)

(** [Peekable<Lexer>]: the peeked slot and the underlying lexer. *)
Record Peekable := mkPeekable {
  peeked : option (option (Result (Token Num) LexerError));
  iter : Lexer
}.

(** [Parser::new] *)
Definition Parser_new (input : list char) : Peekable :=
  mkPeekable None (Lexer_new input).

(** [Peekable::peek] *)
Definition peekable_peek (st : Peekable) : option (Result (Token Num) LexerError) * Peekable :=
  match peeked st with
  | Some item => (item, st)
  | None => let (item, l') := Lexer_next (iter st) in (item, mkPeekable (Some item) l')
  end.

(** [Peekable::next] *)
Definition peekable_next (st : Peekable) : option (Result (Token Num) LexerError) * Peekable :=
  match peeked st with
  | Some item => (item, mkPeekable None (iter st))
  | None => let (item, l') := Lexer_next (iter st) in (item, mkPeekable None l')
  end.

(** The parser's monad: state passing over the [Peekable] lexer, Rust's
    [?] on [ParserError], and [None] when the recursion bound [fuel] of the
    recursive descent runs out. *)
Definition PM (A : Type) : Type :=
  Peekable -> option (Result A (ParserError Num) * Peekable).

Definition pret {A} (x : A) : PM A := fun st => Some (Ok x, st).
Definition pthrow {A} (e : ParserError Num) : PM A := fun st => Some (Err e, st).
Definition out_of_fuel {A} : PM A := fun _ => None.
Definition pbind {A B} (m : PM A) (k : A -> PM B) : PM B :=
  fun st =>
    match m st with
    | Some (Ok x, st') => k x st'
    | Some (Err e, st') => Some (Err e, st')
    | None => None
    end.

Notation "'let!' x ':=' m 'in' k" := (pbind m (fun x => k))
  (at level 200, x name, m at level 100, k at level 200).

(** [Parser::peek] *)
Definition peek : PM (option (Token Num)) :=
  fun st =>
    let (item, st') := peekable_peek st in
    match item with
    | None => Some (Ok None, st')
    | Some (Ok t) => Some (Ok (Some t), st')
    | Some (Err e) => Some (Err (PE_LexerError e), st')
    end.

(** [Parser::advance] *)
Definition advance : PM (Token Num) :=
  fun st =>
    let (item, st') := peekable_next st in
    match item with
    | None => Some (Err PE_UnexpectedEnd, st')
    | Some (Ok t) => Some (Ok t, st')
    | Some (Err e) => Some (Err (PE_LexerError e), st')
    end.

(** [Parser::expect]; every call site passes a punctuation token, so the
    token comparison is a comparison of punctuation. *)
Definition punctuation_eqb (p q : Punctuation) : bool :=
  match p, q with
  | LeftParenthesis, LeftParenthesis | RightParenthesis, RightParenthesis
  | Semicolon, Semicolon | Assignment, Assignment => true
  | _, _ => false
  end.

Definition expect (p : Punctuation) : PM unit :=
  let! next_token := advance in
  match next_token with
  | TPunctuation q => if punctuation_eqb p q then pret tt else pthrow (PE_UnexpectedToken next_token)
  | _ => pthrow (PE_UnexpectedToken next_token)
  end.

(** [TryFrom<Operator> for UnaryOp<N>] *)
Definition unary_try_from (op : Operator) : Result UnaryOp (ParserError Num) :=
  match op with
  | Plus => Ok Positive
  | Minus => Ok Negative
  | _ => Err (PE_UnexpectedToken (TOperator op))
  end.

Definition lift {A} (r : Result A (ParserError Num)) : PM A :=
  fun st => Some (r, st).

(** [Parser::parse_expression], its [loop], and [Parser::parse_primary]. *)
Fixpoint parse_expression (fuel : nat) (first : Token Num) (min_precedence : nat)
  : PM (Expression Num) :=
  match fuel with
  | O => out_of_fuel
  | S f =>
      let! primary := parse_primary f first in
      expression_loop f min_precedence primary
  end
with expression_loop (fuel : nat) (min_precedence : nat) (primary : Expression Num)
  : PM (Expression Num) :=
  match fuel with
  | O => out_of_fuel
  | S f =>
      let! next := peek in
      match next with
      | Some (TOperator operator) =>
          if Nat.ltb (priority operator) min_precedence then pret primary
          else
            let! _ := advance in
            let next_min_prec :=
              match associativity operator with
              | Left => (priority operator + 1)%nat
              | Right => priority operator
              end in
            let! token_after_operator := advance in
            let! after_operator := parse_expression f token_after_operator next_min_prec in
            expression_loop f min_precedence (Binary primary operator after_operator)
      | Some (TPunctuation Semicolon) => pret primary
      | Some (TPunctuation RightParenthesis) => pret primary
      | None => pret primary
      | Some token => pthrow (PE_UnexpectedToken token)
      end
  end
with parse_primary (fuel : nat) (first : Token Num) : PM (Expression Num) :=
  match fuel with
  | O => out_of_fuel
  | S f =>
      match first with
      | TNumber num => pret (Number num)
      | TIdentifier var_name =>
          let! next := peek in
          match next with
          | Some (TPunctuation LeftParenthesis) =>
              let! left_parenthesis := advance in
              let! argument := parse_primary f left_parenthesis in
              pret (Call var_name argument)
          | _ => pret (Var var_name)
          end
      | TPunctuation LeftParenthesis =>
          let! next_token := advance in
          let! result := parse_expression f next_token 0 in
          let! _ := expect RightParenthesis in
          pret result
      | TOperator ((Plus | Minus) as operator) =>
          let! next_token := advance in
          let! operand := parse_primary f next_token in
          let! u := lift (unary_try_from operator) in
          pret (Unary u operand)
      | token => pthrow (PE_UnexpectedToken token)
      end
  end.

(** [Parser::parse_assignment] *)
Definition parse_assignment (fuel : nat) (var_name : list char) : PM (Statement Num) :=
  let! _ := expect Assignment in
  let! first_expression_token := advance in
  let! e := parse_expression fuel first_expression_token 0 in
  pret (StAssignment var_name e).

(** [Parser::parse_statement]: an identifier not followed by [=] falls
    through the match guard to the last arm. *)
Definition parse_statement (fuel : nat) : PM (Statement Num) :=
  let! token := advance in
  match token with
  | TIdentifier var =>
      let! next := peek in
      match next with
      | Some (TPunctuation Assignment) => parse_assignment fuel var
      | _ => let! e := parse_expression fuel token 0 in pret (StExpression e)
      end
  | TPunctuation Semicolon => pret StEmpty
  | _ => let! e := parse_expression fuel token 0 in pret (StExpression e)
  end.

(** The [while] loop of [Parser::parse_program]; [statements] is the
    vector built so far. *)
Fixpoint program_loop (fuel : nat) (statements : list (Statement Num))
  : PM (list (Statement Num)) :=
  match fuel with
  | O => out_of_fuel
  | S f =>
      let! next := peek in
      match next with
      | None => pret statements
      | Some _ =>
          let! statement := parse_statement f in
          let! _ := match statement with
                    | StEmpty => pret tt
                    | _ => expect Semicolon
                    end in
          program_loop f (statements ++ [statement])
      end
  end.

(** [Parser::parse_program] *)
Definition parse_program (fuel : nat) : PM (list (Statement Num)) :=
  program_loop fuel [].

(** A recursion bound for an input: every nested call of the descent and
    every loop round consumes a token, and there are at most as many
    tokens as characters. *)
Definition parse_fuel (input : list char) : nat := (4 * length input + 8)%nat.

(** [Parser::new(input).parse_program()]; [None] only if the bound ran out. *)
Definition parse_input (input : list char)
  : option (Result (list (Statement Num)) (ParserError Num)) :=
  option_map fst (parse_program (parse_fuel input) (Parser_new input)).

(* ------------------------------------------------------------------ *)
(** ** The evaluator (src/src/evaluator/mod.rs) *)

(** [N::zero()] and [Sub] of the numeric backend, used by [UnaryOp::apply]. *)
Variable zero : Num.
Variable sub : Num -> Num -> Num.

(** Modelled from the spec: [Operator::apply], called by
    [Evaluator::eval_expression] but absent from the sources: the backend's
    arithmetic for the operator, which may fail with a message ("Binary
    evaluates both operands then applies the operator's arithmetic, which
    itself may fail"). *)
Variable op_apply : Operator -> Num -> Num -> Result Num string.

(** [BuiltinFn::call]: the injected builtin capability. *)
Variable builtin_call : list char -> Num -> option Num.

(** [UnaryOp::apply] *)
Definition unary_apply (u : UnaryOp) (a : Num) : Num :=
  match u with
  | Negative => sub zero a
  | Positive => a
  end.

(** The environment [HashMap<String, N>]. *)
Abbreviation Env := (gmap (list char) Num).

(** [Evaluator::eval_expression]: it only reads the environment. *)
Fixpoint eval_expression (env : Env) (expression : Expression Num)
  : Result Num (EvaluatorError Num) :=
  match expression with
  | Number n => Ok n
  | Var var =>
      match env !! var with
      | Some v => Ok v
      | None => Err (EE_UndefinedVariable var)
      end
  | Unary unary_op e =>
      match eval_expression env e with
      | Ok a => Ok (unary_apply unary_op a)
      | Err err => Err err
      end
  | Binary e operator e1 =>
      match eval_expression env e with
      | Err err => Err err
      | Ok a =>
          match eval_expression env e1 with
          | Err err => Err err
          | Ok b =>
              match op_apply operator a b with
              | Ok r => Ok r
              | Err message => Err (EE_OperationFailed message)
              end
          end
      end
  | Call func_name e =>
      match eval_expression env e with
      | Err err => Err err
      | Ok argument =>
          match builtin_call func_name argument with
          | Some r => Ok r
          | None => Err (EE_UnknownFunction func_name)
          end
      end
  end.

(** [Evaluator::eval_statement]: the result and the environment after it. *)
Definition eval_statement (env : Env) (statement : Statement Num)
  : Result (option Num) (EvaluatorError Num) * Env :=
  match statement with
  | StAssignment var_name expression =>
      match eval_expression env expression with
      | Ok expr_res => (Ok None, <[var_name := expr_res]> env)
      | Err err => (Err err, env)
      end
  | StExpression expression =>
      match eval_expression env expression with
      | Ok v => (Ok (Some v), env)
      | Err err => (Err err, env)
      end
  | StEmpty => (Ok None, env)
  end.

(** The [for] loop of [Evaluator::parse]: [res = self.eval_statement(statement)]
    for each statement in turn. *)
Definition eval_statements (res : Result (option Num) (EvaluatorError Num)) (env : Env)
  (statements : list (Statement Num)) : Result (option Num) (EvaluatorError Num) * Env :=
  fold_left (fun acc statement => eval_statement (snd acc) statement) statements (res, env).

(** [Evaluator::parse] on an evaluator whose environment is [env]: the
    result and the environment afterwards ([None] only if the parser's
    recursion bound ran out). *)
Definition Evaluator_parse (env : Env) (input : list char)
  : option (Result (option Num) (EvaluatorError Num) * Env) :=
  match parse_input input with
  | None => None
  | Some (Err e) => Some (Err (EE_ParserError e), env)
  | Some (Ok statements) => Some (eval_statements (Err EE_UnexpectedError) env statements)
  end.

(* ------------------------------------------------------------------ *)
(** ** Lexer lemmas *)

(** [DIGIT+]: a non-empty run of ASCII digits. *)
Definition digit_run (ds : list char) : Prop :=
  ds <> [] /\ forallb is_ascii_digit ds = true.

(** The numeral grammar [DIGIT+('.'DIGIT+)?]. *)
Definition numeral (s : list char) : Prop :=
  exists ds1 frac, digit_run ds1 /\ s = ds1 ++ frac /\
    (frac = [] \/ exists ds2, digit_run ds2 /\ frac = 46 :: ds2).

Lemma str_len_app (a b : list char) : str_len (a ++ b) = (str_len a + str_len b)%nat.
Proof.
  induction a as [|c a IH]; simpl; [reflexivity|].
  unfold str_len in *; simpl; rewrite IH; lia.
Qed.

Lemma len_utf8_pos (c : char) : (0 < len_utf8 c)%nat.
Proof. unfold len_utf8; repeat destruct (_ <? _); lia. Qed.

Lemma str_len_nonempty (s : list char) : s <> [] -> (0 < str_len s)%nat.
Proof.
  destruct s as [|c s]; [congruence|]; intros _.
  unfold str_len; simpl; pose proof (len_utf8_pos c); lia.
Qed.

Lemma digit_not_whitespace (c : char) : is_ascii_digit c = true -> is_whitespace c = false.
Proof.
  unfold is_ascii_digit; intros H; apply andb_prop in H as [H1 H2].
  apply N.leb_le in H1; apply N.leb_le in H2.
  assert (c = 48 \/ c = 49 \/ c = 50 \/ c = 51 \/ c = 52 \/ c = 53 \/ c = 54
          \/ c = 55 \/ c = 56 \/ c = 57) as Hc by lia.
  repeat destruct Hc as [-> | Hc]; try reflexivity; subst; reflexivity.
Qed.

Lemma integer_loop_digits (ds rest : list char) (pos : nat) (buf : list char) :
  forallb is_ascii_digit ds = true ->
  integer_loop (ds ++ rest) pos buf = integer_loop rest (pos + str_len ds) (buf ++ ds).
Proof.
  revert pos buf; induction ds as [|c ds IH]; intros pos buf Hd; simpl.
  - rewrite Nat.add_0_r, app_nil_r; reflexivity.
  - apply andb_prop in Hd as [Hc Hd]; rewrite Hc, IH by exact Hd.
    unfold str_len; simpl; rewrite <- app_assoc, Nat.add_assoc; reflexivity.
Qed.

Lemma decimal_digits_all (ds : list char) (pos : nat) (buf : list char) :
  forallb is_ascii_digit ds = true ->
  decimal_digits ds pos buf = mkCtx [] (pos + str_len ds) (buf ++ ds).
Proof.
  revert pos buf; induction ds as [|c ds IH]; intros pos buf Hd; simpl.
  - rewrite Nat.add_0_r, app_nil_r; reflexivity.
  - apply andb_prop in Hd as [Hc Hd]; rewrite Hc, IH by exact Hd.
    unfold str_len; simpl; rewrite <- app_assoc, Nat.add_assoc; reflexivity.
Qed.

(** Lexing a numeral: one [Number] token, and the input is used up. *)
Lemma next_token_numeral (s : list char) (v : Num) :
  numeral s -> from_str_radix s = Some v ->
  exists pos, next_token (FSMContext_new s) = Ok (TNumber v, mkCtx [] pos s).
Proof.
  intros (ds1 & frac & [Hne Hd] & -> & Hfrac) Hv.
  destruct ds1 as [|c ds1']; [congruence|].
  pose proof Hd as Hc; simpl in Hc; apply andb_prop in Hc as [Hc Hd'].
  unfold next_token, FSMContext_new; simpl.
  rewrite (digit_not_whitespace c Hc), Hc.
  unfold integer_collect; simpl; rewrite Hc.
  rewrite (integer_loop_digits ds1' frac) by exact Hd'; simpl.
  destruct Hfrac as [-> | (ds2 & [Hne2 Hd2] & ->)].
  - rewrite app_nil_r in Hv |- *; simpl; unfold finish_number; simpl.
    replace (c :: ds1') with ([c] ++ ds1') in Hv by reflexivity.
    simpl in Hv; rewrite Hv; eexists; reflexivity.
  - simpl; unfold decimal_collect; simpl.
    rewrite decimal_digits_all by exact Hd2; simpl.
    pose proof (str_len_nonempty ds2 Hne2).
    match goal with |- context [Nat.eqb ?a ?b] => destruct (Nat.eqb_spec a b) as [E|_]; [rewrite !str_len_app in E; lia|] end.
    unfold finish_number; simpl.
    match goal with
    | |- context [from_str_radix ?b] =>
        assert (from_str_radix b = Some v) as -> by (rewrite <- app_assoc; exact Hv)
    end.
    rewrite <- app_assoc; eexists; reflexivity.
Qed.

(** ** C5 *)
(** C5: for every input matching [DIGIT+('.'DIGIT+)?] whose radix-10 parse
    by the backend is [v], the lexer's first item is the token [Number(v)]
    and the sequence then ends. *)
Theorem numeral_lexes_to_one_number (s : list char) (v : Num) :
  numeral s -> from_str_radix s = Some v ->
  exists l', Lexer_next (Lexer_new s) = (Some (Ok (TNumber v)), l')
             /\ Lexer_next l' = (None, None).
Proof.
  intros Hs Hv; destruct (next_token_numeral s v Hs Hv) as [pos E].
  exists (Some (mkCtx [] pos s)); unfold Lexer_new; simpl; rewrite E; split; reflexivity.
Qed.

(** Leading whitespace is skipped, its bytes counted in the position. *)
Lemma next_token_loop_skip_whitespace (ws cs : list char) (pos : nat) (buf : list char) :
  forallb is_whitespace ws = true ->
  next_token_loop (ws ++ cs) pos buf = next_token_loop cs (pos + str_len ws) buf.
Proof.
  revert pos; induction ws as [|c ws IH]; intros pos H; simpl.
  - rewrite Nat.add_0_r; reflexivity.
  - apply andb_prop in H as [Hc H]; rewrite Hc, IH by exact H.
    unfold str_len; simpl; rewrite Nat.add_assoc; reflexivity.
Qed.

(** The digit loop of the decimal part stops at once before a non-digit. *)
Lemma decimal_digits_stop (rest : list char) (pos : nat) (buf : list char) :
  (forall c r, rest = c :: r -> is_ascii_digit c = false) ->
  decimal_digits rest pos buf = mkCtx rest pos buf.
Proof.
  destruct rest as [|c r]; intros H; simpl; [reflexivity|].
  rewrite (H c r eq_refl); reflexivity.
Qed.

(** ** C6 *)
(** C6: a numeral whose decimal point is followed by no digit fails: at
    any point of the input, a run of digits (after optional whitespace)
    followed by ['.'] and then by a non-digit or the end of the input makes
    [next] return [InvalidNumber(buffer, offset)], the buffer being the
    digits and the dot and the offset the byte offset just after the dot,
    and the lexer stops; whatever the numeric backend. In particular the
    lexer's only item on ["5."] is [InvalidNumber("5.", 2)]. *)
Theorem trailing_dot_invalid_number :
  (forall (ws ds rest : list char) (pos : nat) (buf : list char),
     forallb is_whitespace ws = true -> ds <> [] -> forallb is_ascii_digit ds = true ->
     (forall c r, rest = c :: r -> is_ascii_digit c = false) ->
     Lexer_next (Some (mkCtx (ws ++ ds ++ 46 :: rest) pos buf))
     = (Some (Err (InvalidNumber (ds ++ [46]) (pos + str_len (ws ++ ds ++ [46])))), None))
  /\ Lexer_next (Lexer_new (str "5.")) = (Some (Err (InvalidNumber (str "5.") 2)), None)
  /\ Lexer_next None = (None, None).
Proof.
  split; [|split; reflexivity].
  intros ws ds rest pos buf Hws Hne Hds Hrest.
  unfold Lexer_next, next_token; cbn [chars position buffer].
  rewrite next_token_loop_skip_whitespace by exact Hws.
  destruct ds as [|d ds']; [congruence|].
  pose proof Hds as Hd; simpl in Hd; apply andb_prop in Hd as [Hd _].
  cbn [app next_token_loop]; rewrite (digit_not_whitespace d Hd), Hd.
  unfold integer_collect; cbn [chars position buffer].
  change (d :: ds' ++ 46 :: rest) with ((d :: ds') ++ 46 :: rest).
  rewrite integer_loop_digits by exact Hds.
  cbn [integer_loop app]; unfold decimal_collect; cbn [chars position buffer].
  rewrite decimal_digits_stop by exact Hrest; cbn [buffer position].
  rewrite Nat.eqb_refl, !str_len_app; simpl.
  rewrite str_len_app; cbn [str_len fold_right]; do 3 f_equal; f_equal; lia.
Qed.

(** Once [next] has returned an error the lexer is [None] for good. *)
Lemma lexer_collect_none (n : nat) : lexer_collect n None = [].
Proof. destruct n; reflexivity. Qed.

(** ** C7 *)
(** C7: the token sequence halts for good at its first error; on ["42 &"]
    it is [Number(42)], then [UnexpectedChar('&', 3)], then nothing. *)
Theorem lexer_halts_after_error (v42 : Num) (H42 : from_str_radix (str "42") = Some v42) :
  (forall l e l', Lexer_next l = (Some (Err e), l') ->
     l' = None /\ forall n, lexer_collect n l' = [])
  /\ exists l1,
       Lexer_next (Lexer_new (str "42 &")) = (Some (Ok (TNumber v42)), l1)
       /\ Lexer_next l1 = (Some (Err (UnexpectedChar (N_of_ascii "&") 3)), None).
Proof.
  split.
  - intros [fsm|] e l' E; simpl in E; [|discriminate].
    destruct (next_token fsm) as [[t fsm']|e'];
      [destruct t; inversion E | inversion E]; subst.
    split; [reflexivity | apply lexer_collect_none].
  - cbv in H42; eexists; split; [cbv; rewrite H42; reflexivity | reflexivity].
Qed.

(* ------------------------------------------------------------------ *)
(** ** The parser never builds [InvalidAssignment] *)

Definition never_invalid_assignment {A} (m : PM A) : Prop :=
  forall st st', m st <> Some (Err PE_InvalidAssignment, st').

Create HintDb no_invalid_assignment.

Lemma nia_pret {A} (x : A) : never_invalid_assignment (pret x).
Proof. intros st st' E; discriminate. Qed.

Lemma nia_pthrow {A} (e : ParserError Num) :
  e <> PE_InvalidAssignment -> never_invalid_assignment (pthrow (A := A) e).
Proof. intros He st st' E; injection E as E _; exact (He E). Qed.

Lemma nia_out_of_fuel {A} : never_invalid_assignment (@out_of_fuel A).
Proof. intros st st' E; discriminate. Qed.

Lemma nia_bind {A B} (m : PM A) (k : A -> PM B) :
  never_invalid_assignment m -> (forall x, never_invalid_assignment (k x)) ->
  never_invalid_assignment (pbind m k).
Proof.
  intros Hm Hk st st'; unfold pbind.
  destruct (m st) as [[[x|e] st1]|] eqn:E; [apply Hk | | discriminate].
  intros F; injection F as -> ->; exact (Hm st _ E).
Qed.

Lemma nia_peek : never_invalid_assignment peek.
Proof.
  intros st st'; unfold peek.
  destruct (peekable_peek st) as [[[t|e]|] st1]; discriminate.
Qed.

Lemma nia_advance : never_invalid_assignment advance.
Proof.
  intros st st'; unfold advance.
  destruct (peekable_next st) as [[[t|e]|] st1]; discriminate.
Qed.

Lemma nia_lift_unary (op : Operator) : never_invalid_assignment (lift (unary_try_from op)).
Proof. intros st st'; destruct op; discriminate. Qed.

#[local] Hint Resolve nia_pret nia_out_of_fuel nia_peek nia_advance nia_lift_unary
  : no_invalid_assignment.

(** One step through a monadic parser body. *)
Ltac nia_step :=
  match goal with
  | |- never_invalid_assignment (pbind _ _) => apply nia_bind; [|intros ?]
  | |- never_invalid_assignment (pthrow _) => apply nia_pthrow; discriminate
  | |- never_invalid_assignment (match ?x with _ => _ end) => destruct x
  | |- never_invalid_assignment (if ?b then _ else _) => destruct b
  | _ => solve [eauto with no_invalid_assignment]
  end.

Lemma nia_expect (p : Punctuation) : never_invalid_assignment (expect p).
Proof. unfold expect; repeat nia_step. Qed.

#[local] Hint Resolve nia_expect : no_invalid_assignment.

Lemma nia_descent (fuel : nat) :
  (forall t mp, never_invalid_assignment (parse_expression fuel t mp))
  /\ (forall mp p, never_invalid_assignment (expression_loop fuel mp p))
  /\ (forall t, never_invalid_assignment (parse_primary fuel t)).
Proof.
  induction fuel as [|f (He & Hl & Hp)].
  - repeat split; intros; apply nia_out_of_fuel.
  - repeat split; intros; cbn [parse_expression expression_loop parse_primary];
      repeat nia_step.
Qed.

Lemma nia_parse_statement (fuel : nat) : never_invalid_assignment (parse_statement fuel).
Proof.
  destruct (nia_descent fuel) as (He & _ & _).
  unfold parse_statement, parse_assignment; repeat nia_step.
Qed.

Lemma nia_program_loop (fuel : nat) (statements : list (Statement Num)) :
  never_invalid_assignment (program_loop fuel statements).
Proof.
  revert statements; induction fuel as [|f IH]; intros statements; cbn [program_loop].
  - apply nia_out_of_fuel.
  - pose proof (nia_parse_statement f); repeat nia_step.
Qed.

Lemma parse_input_not_invalid_assignment (input : list char) :
  parse_input input <> Some (Err PE_InvalidAssignment).
Proof.
  unfold parse_input, parse_program.
  destruct (program_loop _ [] _) as [[r st]|] eqn:E; simpl; [|discriminate].
  intros F; injection F as ->; exact (nia_program_loop _ [] _ _ E).
Qed.

(* ------------------------------------------------------------------ *)
(** ** Evaluation errors *)

(** The errors [eval_expression] can produce. *)
Definition evaluation_error (e : EvaluatorError Num) : Prop :=
  match e with
  | EE_OperationFailed _ | EE_UndefinedVariable _ | EE_UnknownFunction _ => True
  | _ => False
  end.

Lemma eval_expression_error (env : Env) (e : Expression Num) (err : EvaluatorError Num) :
  eval_expression env e = Err err -> evaluation_error err.
Proof.
  revert err; induction e as [n|v|u e IH|l IHl op r IHr|f a IH]; intros err; simpl.
  - discriminate.
  - destruct (env !! v); [discriminate|]; intros F; injection F as <-; exact I.
  - destruct (eval_expression env e); [discriminate|]; intros F; injection F as <-; auto.
  - destruct (eval_expression env l) as [x|el]; [|intros F; injection F as <-; auto].
    destruct (eval_expression env r) as [y|er]; [|intros F; injection F as <-; auto].
    destruct (op_apply op x y); [discriminate|]; intros F; injection F as <-; exact I.
  - destruct (eval_expression env a) as [x|ea]; [|intros F; injection F as <-; auto].
    destruct (builtin_call f x); [discriminate|]; intros F; injection F as <-; exact I.
Qed.

Lemma eval_statement_error (env : Env) (s : Statement Num) (err : EvaluatorError Num) :
  fst (eval_statement env s) = Err err -> evaluation_error err.
Proof.
  destruct s as [x e|e|]; simpl; try discriminate;
    destruct (eval_expression env e) eqn:E; simpl; try discriminate;
    intros F; injection F as ->; exact (eval_expression_error env e _ E).
Qed.

Lemma eval_statements_cons (res : Result (option Num) (EvaluatorError Num)) (env : Env)
  (s : Statement Num) (rest : list (Statement Num)) :
  eval_statements res env (s :: rest)
  = eval_statements (fst (eval_statement env s)) (snd (eval_statement env s)) rest.
Proof. unfold eval_statements; simpl; destruct (eval_statement env s); reflexivity. Qed.

(** After at least one statement the result is the last statement's. *)
Lemma eval_statements_error (statements : list (Statement Num))
  (res : Result (option Num) (EvaluatorError Num)) (env : Env) (err : EvaluatorError Num) :
  fst (eval_statements res env statements) = Err err ->
  evaluation_error err \/ (statements = [] /\ res = Err err).
Proof.
  revert res env; induction statements as [|s rest IH]; intros res env.
  - simpl; auto.
  - rewrite eval_statements_cons; intros E.
    destruct (IH _ _ E) as [H | [-> H]]; [auto|].
    left; exact (eval_statement_error env s err H).
Qed.

(** Statements other than assignments leave the environment as it is. *)
Lemma eval_statements_frame (statements : list (Statement Num))
  (res : Result (option Num) (EvaluatorError Num)) (env : Env) :
  Forall (fun s => match s with StAssignment _ _ => False | _ => True end) statements ->
  snd (eval_statements res env statements) = env.
Proof.
  intros Hs; revert res; induction Hs as [|s rest Hs _ IH]; intros res; [reflexivity|].
  rewrite eval_statements_cons.
  destruct s as [x e|e|]; [contradiction| |]; simpl.
  - destruct (eval_expression env e); apply IH.
  - apply IH.
Qed.

(** The errors [Evaluator::parse] can return. *)
Lemma Evaluator_parse_error (env : Env) (input : list char) (err : EvaluatorError Num) (env' : Env) :
  Evaluator_parse env input = Some (Err err, env') ->
  (exists pe, err = EE_ParserError pe)
  \/ evaluation_error err
  \/ (parse_input input = Some (Ok []) /\ err = EE_UnexpectedError /\ env' = env).
Proof.
  unfold Evaluator_parse.
  destruct (parse_input input) as [[statements|pe]|]; intros E; [| |discriminate].
  - pose proof (eval_statements_error statements (Err EE_UnexpectedError) env err) as H.
    injection E as E; rewrite E in H; destruct (H eq_refl) as [H' | [-> H']]; [auto|].
    injection H' as <-; simpl in E; injection E as <-; auto.
  - injection E as <- _; eauto.
Qed.

(** ** C3 *)
(** C3 (amended): [Evaluator::parse] returns [UnexpectedError] exactly
    when the input parses to zero statements, the initial value of [res]
    then being returned as it is; the environment is then unchanged. *)
Theorem unexpected_error_iff_no_statements (env : Env) (input : list char) (env' : Env) :
  Evaluator_parse env input = Some (Err EE_UnexpectedError, env')
  <-> parse_input input = Some (Ok []) /\ env' = env.
Proof.
  split.
  - intros E; destruct (Evaluator_parse_error env input _ env' E) as [[pe F] | [F | (H & _ & H')]].
    + discriminate.
    + contradiction.
    + auto.
  - intros [H ->]; unfold Evaluator_parse; rewrite H; reflexivity.
Qed.

Lemma Evaluator_parse_not_invalid_assignment (env : Env) (input : list char)
  (name : list char) (env' : Env) :
  Evaluator_parse env input <> Some (Err (EE_InvalidAssignment name), env').
Proof.
  intros E; destruct (Evaluator_parse_error env input _ env' E) as [[pe F] | [F | (_ & F & _)]];
    [discriminate | contradiction | discriminate].
Qed.

(* ------------------------------------------------------------------ *)
(** ** What each lexer item says about the input *)

(** The characters the loop of [LexerFSM<InIdentifier>::collect] keeps. *)
Definition ident_char (c : char) : bool :=
  is_ascii_alphabetic c || is_ascii_digit c || (c =? 95).

(** An identifier as [next_token] reads it: an ASCII letter, then ASCII
    letters, digits and ['_']. *)
Definition identifier_text (s : list char) : Prop :=
  exists c cs, s = c :: cs /\ is_ascii_alphabetic c = true /\ forallb ident_char cs = true.

(** A character no branch of [next_token] accepts. *)
Definition unexpected_char (c : char) : Prop :=
  is_whitespace c = false /\ is_ascii_digit c = false /\ is_ascii_alphabetic c = false
  /\ Operator_get c = None /\ Punctuation_get c = None.

(** The text of the input a token is read from; [Eof] is read from none. *)
Definition token_text (t : Token Num) (text : list char) : Prop :=
  match t with
  | TNumber v => numeral text /\ from_str_radix text = Some v
  | TIdentifier name => name = text /\ identifier_text text
  | TOperator op => exists c, text = [c] /\ Operator_get c = Some op
  | TPunctuation p => exists c, text = [c] /\ Operator_get c = None /\ Punctuation_get c = Some p
  | TEof => False
  end.

(** What may follow the text of a token: a number is followed by no digit,
    and by no ['.'] unless it has one; an identifier by no character it
    could take in. *)
Definition token_end (t : Token Num) (text rest : list char) : Prop :=
  forall c r, rest = c :: r ->
  match t with
  | TNumber _ => is_ascii_digit c = false /\ (c = 46 -> In 46 text)
  | TIdentifier _ => ident_char c = false
  | _ => True
  end.

(** What a lexer item says about the [input] it was read from: a token is
    read from a piece of it; [UnexpectedChar(c, p)] names a character of it
    at byte offset [p]; [InvalidNumber(b, p)] names a piece [b] of it ending
    at byte offset [p]. *)
Definition lexer_item_in (input : list char) (item : Result (Token Num) LexerError) : Prop :=
  match item with
  | Ok t =>
      exists pre text rest, input = pre ++ text ++ rest
        /\ token_text t text /\ token_end t text rest
  | Err (UnexpectedChar c p) =>
      exists pre rest, input = pre ++ c :: rest /\ p = str_len pre /\ unexpected_char c
  | Err (InvalidNumber b p) =>
      exists pre rest, input = pre ++ b ++ rest /\ p = str_len (pre ++ b) /\ b <> []
  end.

Lemma str_len_nil : str_len [] = 0%nat.
Proof. reflexivity. Qed.

Lemma str_len_cons (c : char) (s : list char) : str_len (c :: s) = (len_utf8 c + str_len s)%nat.
Proof. reflexivity. Qed.

(** What the integer loop reads after its first digit: [DIGIT*('.'DIGIT+)?]. *)
Definition numeral_tail (s : list char) : Prop :=
  exists ds frac, forallb is_ascii_digit ds = true /\ s = ds ++ frac /\
    (frac = [] \/ exists ds2, digit_run ds2 /\ frac = 46 :: ds2).

Lemma numeral_tail_nil : numeral_tail [].
Proof. exists [], []; split; [reflexivity | split; [reflexivity | left; reflexivity]]. Qed.

Lemma numeral_tail_cons (c : char) (s : list char) :
  is_ascii_digit c = true -> numeral_tail s -> numeral_tail (c :: s).
Proof.
  intros Hc (ds & frac & Hd & -> & Hf); exists (c :: ds), frac.
  simpl; rewrite Hc, Hd; auto.
Qed.

Lemma numeral_cons (c : char) (s : list char) :
  is_ascii_digit c = true -> numeral_tail s -> numeral (c :: s).
Proof.
  intros Hc (ds & frac & Hd & -> & Hf); exists (c :: ds), frac.
  split; [split; [discriminate | simpl; rewrite Hc, Hd; reflexivity] | auto].
Qed.

Lemma decimal_digits_spec (cs : list char) (pos : nat) (buf : list char) :
  exists ds rest, cs = ds ++ rest /\ forallb is_ascii_digit ds = true
    /\ (forall c r, rest = c :: r -> is_ascii_digit c = false)
    /\ decimal_digits cs pos buf = mkCtx rest (pos + str_len ds) (buf ++ ds).
Proof.
  revert pos buf; induction cs as [|c cs IH]; intros pos buf; simpl.
  - exists [], []; split; [reflexivity | split; [reflexivity | split; [discriminate|]]].
    rewrite ?str_len_nil, ?app_nil_r, ?Nat.add_0_r; reflexivity.
  - destruct (is_ascii_digit c) eqn:Hc.
    + destruct (IH (pos + len_utf8 c)%nat (buf ++ [c])) as (ds & rest & -> & Hd & Hend & E).
      exists (c :: ds), rest; rewrite E; simpl; rewrite Hc, Hd.
      split; [reflexivity | split; [reflexivity | split; [exact Hend|]]].
      unfold str_len; simpl; rewrite <- app_assoc, Nat.add_assoc; reflexivity.
    + exists [], (c :: cs); split; [reflexivity | split; [reflexivity | split]].
      * intros c' r F; injection F as <- _; exact Hc.
      * rewrite ?str_len_nil, ?app_nil_r, ?Nat.add_0_r; reflexivity.
Qed.

Lemma integer_loop_ok (cs : list char) (pos : nat) (buf : list char)
  (t : Token Num) (ctx' : FSMContext) :
  integer_loop cs pos buf = Ok (t, ctx') ->
  exists pre v, cs = pre ++ chars ctx' /\ position ctx' = (pos + str_len pre)%nat
    /\ t = TNumber v /\ from_str_radix (buf ++ pre) = Some v /\ numeral_tail pre
    /\ (forall c r, chars ctx' = c :: r -> is_ascii_digit c = false /\ (c = 46 -> In 46 pre)).
Proof.
  revert pos buf; induction cs as [|c cs IH]; intros pos buf; simpl.
  - unfold finish_number; simpl; destruct (from_str_radix buf) as [v|] eqn:Hv; [|discriminate].
    intros E; injection E as <- <-; exists [], v; simpl.
    rewrite ?str_len_nil, ?app_nil_r, ?Nat.add_0_r.
    repeat (split; [solve [auto using numeral_tail_nil]|]); intros c r F; discriminate.
  - destruct (is_ascii_digit c) eqn:Hc.
    + intros E; destruct (IH _ _ E) as (pre & v & -> & Hp & -> & Hv & Ht & Hend).
      exists (c :: pre), v; rewrite <- app_assoc in Hv.
      split; [reflexivity|]; split; [rewrite Hp; rewrite ?str_len_cons; lia|].
      split; [reflexivity|]; split; [exact Hv|]; split; [auto using numeral_tail_cons|].
      intros c' r F; destruct (Hend c' r F) as [H1 H2]; split; [exact H1 | intros H3; right; auto].
    + destruct (c =? 46) eqn:Hdot.
      * apply N.eqb_eq in Hdot; subst c.
        unfold decimal_collect; simpl.
        match goal with |- context [decimal_digits cs ?p ?b] =>
          destruct (decimal_digits_spec cs p b) as (ds & rest & Hcs & Hd & Hend & Edd) end.
        rewrite Edd; subst cs; simpl.
        destruct ds as [|d ds'].
        { rewrite app_nil_r, Nat.eqb_refl; discriminate. }
        match goal with |- context [Nat.eqb ?a ?b] =>
          destruct (Nat.eqb_spec a b) as [E|_];
          [rewrite !str_len_app in E; pose proof (str_len_nonempty (d :: ds') ltac:(discriminate)); lia|] end.
        unfold finish_number; simpl.
        destruct (from_str_radix _) as [v|] eqn:Hv; [|discriminate].
        intros E; injection E as <- <-; simpl.
        exists (46 :: d :: ds'), v; rewrite <- app_assoc in Hv.
        split; [reflexivity|]; split; [rewrite ?str_len_cons; lia|].
        split; [reflexivity|]; split; [exact Hv|]; split.
        { exists [], (46 :: d :: ds'); split; [reflexivity | split; [reflexivity|]].
          right; exists (d :: ds'); split; [split; [discriminate | exact Hd] | reflexivity]. }
        intros c' r F; split; [exact (Hend c' r F) | intros _; left; reflexivity].
      * unfold finish_number; simpl; destruct (from_str_radix buf) as [v|] eqn:Hv; [|discriminate].
        intros E; injection E as <- <-; exists [], v; simpl.
        rewrite ?str_len_nil, ?app_nil_r, ?Nat.add_0_r.
        repeat (split; [solve [auto using numeral_tail_nil]|]).
        intros c' r F; injection F as <- _; split; [exact Hc|].
        intros ->; discriminate.
Qed.

Lemma integer_loop_err (cs : list char) (pos : nat) (buf : list char) (e : LexerError) :
  integer_loop cs pos buf = Err e ->
  exists pre rest, cs = pre ++ rest /\ e = InvalidNumber (buf ++ pre) (pos + str_len pre).
Proof.
  revert pos buf; induction cs as [|c cs IH]; intros pos buf; simpl.
  - unfold finish_number; simpl; destruct (from_str_radix buf); [discriminate|].
    intros E; injection E as <-; exists [], []; rewrite ?str_len_nil, ?app_nil_r, ?Nat.add_0_r; auto.
  - destruct (is_ascii_digit c) eqn:Hc.
    + intros E; destruct (IH _ _ E) as (pre & rest & -> & ->).
      exists (c :: pre), rest; rewrite <- app_assoc; split; [reflexivity|].
      rewrite ?str_len_cons; f_equal; try reflexivity; lia.
    + destruct (c =? 46) eqn:Hdot.
      * unfold decimal_collect; simpl.
        match goal with |- context [decimal_digits cs ?p ?b] =>
          destruct (decimal_digits_spec cs p b) as (ds & rest & Hcs & Hd & Hend & Edd) end.
        rewrite Edd; subst cs; simpl.
        assert (forall e', Err e' = Err (T := Token Num * FSMContext) e ->
                  e' = InvalidNumber ((buf ++ [c]) ++ ds) (pos + len_utf8 c + str_len ds) ->
                  exists pre rest', c :: ds ++ rest = pre ++ rest'
                     /\ e = InvalidNumber (buf ++ pre) (pos + str_len pre)) as K.
        { intros e' F ->; injection F as <-; exists (c :: ds), rest; split; [reflexivity|].
          rewrite <- app_assoc, ?str_len_cons; f_equal; lia. }
        destruct (Nat.eqb _ _); [intros F; exact (K _ F eq_refl)|].
        unfold finish_number; simpl; destruct (from_str_radix _); [discriminate|].
        intros F; exact (K _ F eq_refl).
      * unfold finish_number; simpl; destruct (from_str_radix buf); [discriminate|].
        intros E; injection E as <-; exists [], (c :: cs); rewrite ?str_len_nil, ?app_nil_r, ?Nat.add_0_r; auto.
Qed.

Lemma identifier_loop_spec (cs : list char) (pos : nat) (buf : list char) :
  exists pre rest, cs = pre ++ rest /\ forallb ident_char pre = true
    /\ (forall c r, rest = c :: r -> ident_char c = false)
    /\ identifier_loop cs pos buf
       = (TIdentifier (buf ++ pre), mkCtx rest (pos + str_len pre) (buf ++ pre)).
Proof.
  revert pos buf; induction cs as [|c cs IH]; intros pos buf; simpl.
  - exists [], []; split; [reflexivity | split; [reflexivity | split; [discriminate|]]].
    rewrite ?str_len_nil, ?app_nil_r, ?Nat.add_0_r; reflexivity.
  - replace (negb (is_ascii_alphabetic c) && negb (is_ascii_digit c) && negb (c =? 95))
      with (negb (ident_char c))
      by (unfold ident_char; destruct (is_ascii_alphabetic c), (is_ascii_digit c), (c =? 95); reflexivity).
    destruct (ident_char c) eqn:Hc; simpl.
    + destruct (IH (pos + len_utf8 c)%nat (buf ++ [c])) as (pre & rest & -> & Hp & Hend & ->).
      exists (c :: pre), rest; simpl; rewrite Hc, Hp, <- app_assoc.
      split; [reflexivity | split; [reflexivity | split; [exact Hend|]]].
      unfold str_len; simpl; rewrite Nat.add_assoc; reflexivity.
    + exists [], (c :: cs); split; [reflexivity | split; [reflexivity | split]].
      * intros c' r F; injection F as <- _; exact Hc.
      * rewrite ?str_len_nil, ?app_nil_r, ?Nat.add_0_r; reflexivity.
Qed.

Lemma next_token_loop_ok (cs : list char) (pos : nat) (buf : list char)
  (t : Token Num) (ctx' : FSMContext) :
  next_token_loop cs pos buf = Ok (t, ctx') ->
  exists ws text, cs = ws ++ text ++ chars ctx' /\ forallb is_whitespace ws = true
    /\ position ctx' = (pos + str_len ws + str_len text)%nat
    /\ ((t = TEof /\ text = [] /\ chars ctx' = [])
        \/ (token_text t text /\ token_end t text (chars ctx'))).
Proof.
  revert pos; induction cs as [|c cs IH]; intros pos; simpl.
  - intros E; injection E as <- <-; exists [], []; simpl; rewrite Nat.add_0_r.
    split; [reflexivity | split; [reflexivity | split; [lia | left; auto]]].
  - destruct (is_whitespace c) eqn:Hw.
    + intros E; destruct (IH _ E) as (ws & text & -> & Hws & Hp & Ht).
      exists (c :: ws), text; simpl; rewrite Hw, Hws, Hp, ?str_len_cons.
      repeat split; auto; lia.
    + destruct (is_ascii_digit c) eqn:Hc.
      * unfold integer_collect; cbn [chars position integer_loop]; rewrite Hc; simpl.
        intros E; destruct (integer_loop_ok _ _ _ _ _ E) as (pre & v & -> & Hp & -> & Hv & Ht & Hend).
        exists [], (c :: pre); simpl; rewrite Hp, ?str_len_cons.
        split; [reflexivity | split; [reflexivity | split; [lia|]]].
        right; split; [split; [apply numeral_cons; assumption | exact Hv]|].
        intros c' r F; destruct (Hend c' r F) as [H1 H2]; split; [exact H1 | intros H3; right; auto].
      * destruct (is_ascii_alphabetic c) eqn:Ha.
        { unfold identifier_collect; cbn [chars position identifier_loop].
          replace (negb (is_ascii_alphabetic c) && negb (is_ascii_digit c) && negb (c =? 95))
            with false by (rewrite Ha; reflexivity); simpl.
          destruct (identifier_loop_spec cs (pos + len_utf8 c)%nat [c]) as (pre & rest & -> & Hp & Hend & ->).
          intros E; injection E as <- <-; exists [], (c :: pre); simpl; rewrite ?str_len_cons.
          split; [reflexivity | split; [reflexivity | split; [lia|]]].
          right; split; [split; [reflexivity | exists c, pre; auto] | exact Hend]. }
        destruct (Operator_get c) as [op|] eqn:Ho.
        { intros E; injection E as <- <-; exists [], [c]; simpl; rewrite ?str_len_cons, ?str_len_nil.
          split; [reflexivity | split; [reflexivity | split; [lia|]]].
          right; split; [exists c; auto | intros ? ? _; exact I]. }
        destruct (Punctuation_get c) as [p|] eqn:Hp; [|discriminate].
        intros E; injection E as <- <-; exists [], [c]; simpl; rewrite ?str_len_cons, ?str_len_nil.
        split; [reflexivity | split; [reflexivity | split; [lia|]]].
        right; split; [exists c; auto | intros ? ? _; exact I].
Qed.

Lemma next_token_loop_err (cs : list char) (pos : nat) (buf : list char) (e : LexerError) :
  next_token_loop cs pos buf = Err e ->
  exists ws, forallb is_whitespace ws = true /\
    match e with
    | UnexpectedChar c p =>
        exists rest, cs = ws ++ c :: rest /\ p = (pos + str_len ws)%nat /\ unexpected_char c
    | InvalidNumber b p =>
        exists rest, cs = ws ++ b ++ rest /\ p = (pos + str_len ws + str_len b)%nat /\ b <> []
    end.
Proof.
  revert pos; induction cs as [|c cs IH]; intros pos; simpl; [discriminate|].
  destruct (is_whitespace c) eqn:Hw.
  - intros E; destruct (IH _ E) as (ws & Hws & He); exists (c :: ws); cbn [forallb]; rewrite Hw, Hws.
    split; [reflexivity|].
    destruct e as [c' p | b p]; destruct He as (rest & -> & -> & H); exists rest.
    + split; [reflexivity|]; split; [rewrite ?str_len_cons; lia | exact H].
    + split; [reflexivity|]; split; [rewrite ?str_len_cons; lia | exact H].
  - destruct (is_ascii_digit c) eqn:Hc.
    + unfold integer_collect; cbn [chars position integer_loop]; rewrite Hc; simpl.
      intros E; destruct (integer_loop_err _ _ _ _ E) as (pre & rest & -> & ->).
      exists []; split; [reflexivity|]; exists rest; simpl; rewrite ?str_len_cons.
      repeat split; [lia | discriminate].
    + destruct (is_ascii_alphabetic c) eqn:Ha; [discriminate|].
      destruct (Operator_get c) eqn:Ho; [discriminate|].
      destruct (Punctuation_get c) eqn:Hp; [discriminate|].
      intros E; injection E as <-; exists []; split; [reflexivity|].
      exists cs; simpl; rewrite Nat.add_0_r; repeat split; auto.
Qed.

Lemma Lexer_next_ok (ctx : FSMContext) (t : Token Num) (ctx' : FSMContext) :
  next_token ctx = Ok (t, ctx') -> t <> TEof ->
  Lexer_next (Some ctx) = (Some (Ok t), Some ctx').
Proof. intros E H; unfold Lexer_next; rewrite E; destruct t; congruence. Qed.

(** Every item of the lexer of [input] started at a suffix of [input] at
    the byte offset of that suffix. *)
Lemma lexer_collect_items_in (input : list char) (n : nat) :
  forall ctx pre, input = pre ++ chars ctx -> position ctx = str_len pre ->
  forall item, In item (lexer_collect n (Some ctx)) -> lexer_item_in input item.
Proof.
  induction n as [|n IH]; intros ctx pre Hin Hpos item; [intros []|].
  cbn [lexer_collect].
  destruct (next_token ctx) as [[t ctx']|e] eqn:E.
  - destruct (next_token_loop_ok _ _ _ _ _ E) as (ws & text & Hcs & Hws & Hp & Ht).
    destruct Ht as [(-> & _ & _) | Ht].
    { unfold Lexer_next; rewrite E; intros []. }
    assert (t <> TEof) as Hne by (intros ->; exact (proj1 Ht)).
    rewrite (Lexer_next_ok ctx t ctx' E Hne); intros [<- | Hitem].
    + exists (pre ++ ws), text, (chars ctx'); split; [|exact Ht].
      rewrite Hin, Hcs, <- !app_assoc; reflexivity.
    + apply (IH ctx' (pre ++ ws ++ text)); [|rewrite !str_len_app; lia|exact Hitem].
      rewrite Hin, Hcs, !app_assoc; reflexivity.
  - unfold Lexer_next; rewrite E; cbn [fst snd]; rewrite lexer_collect_none.
    intros [<- | []].
    destruct (next_token_loop_err _ _ _ _ E) as (ws & Hws & He).
    destruct e as [c p | b p]; destruct He as (rest & Hcs & -> & H).
    + exists (pre ++ ws), rest; rewrite Hin, Hcs, <- app_assoc, str_len_app, Hpos; auto.
    + exists (pre ++ ws), rest; rewrite Hin, Hcs, <- app_assoc, !str_len_app, Hpos.
      repeat split; auto; lia.
Qed.

Lemma lexer_items_in_input (input : list char) (n : nat) (item : Result (Token Num) LexerError) :
  In item (lexer_collect n (Lexer_new input)) -> lexer_item_in input item.
Proof. apply (lexer_collect_items_in input n (FSMContext_new input) []); reflexivity. Qed.

Lemma token_text_nonempty (t : Token Num) (text : list char) : token_text t text -> text <> [].
Proof.
  destruct t; simpl.
  - intros [(ds1 & frac & [Hne _] & -> & _) _]; destruct ds1; [congruence | discriminate].
  - intros [_ (c & cs & -> & _)]; discriminate.
  - intros (c & -> & _); discriminate.
  - intros (c & -> & _); discriminate.
  - intros [].
Qed.

(** The characters a lexer has left. *)
Definition lexer_size (l : Lexer) : nat :=
  match l with
  | None => 0
  | Some ctx => length (chars ctx)
  end.

(** Every item costs the lexer at least one character. *)
Lemma Lexer_next_progress (l : Lexer) (item : Result (Token Num) LexerError) (l' : Lexer) :
  Lexer_next l = (Some item, l') -> (lexer_size l' < lexer_size l)%nat.
Proof.
  destruct l as [ctx|]; [|discriminate]; unfold Lexer_next.
  destruct (next_token ctx) as [[t ctx']|e] eqn:E.
  - destruct (next_token_loop_ok _ _ _ _ _ E) as (ws & text & Hcs & _ & _ & Ht).
    destruct Ht as [(-> & _ & _) | Ht]; [discriminate|].
    pose proof (token_text_nonempty t text (proj1 Ht)) as Hn.
    destruct t; [| | | | destruct Ht as [[] _]];
      intros F; injection F as _ <-; simpl; rewrite Hcs, !length_app;
      (destruct text; [congruence | simpl; lia]).
  - intros F; injection F as _ <-; simpl.
    destruct (next_token_loop_err _ _ _ _ E) as (ws & _ & He).
    destruct e as [c p | b p]; destruct He as (rest & Hcs & _ & H); rewrite Hcs, !length_app.
    + simpl; lia.
    + destruct b; [congruence|]; simpl; lia.
Qed.

Lemma Lexer_next_end (l l' : Lexer) : Lexer_next l = (None, l') -> l' = None.
Proof.
  destruct l as [ctx|]; unfold Lexer_next; [|congruence].
  destruct (next_token ctx) as [[[] ctx']|e]; congruence.
Qed.

Lemma lexer_collect_length (n : nat) (l : Lexer) : (length (lexer_collect n l) <= lexer_size l)%nat.
Proof.
  revert l; induction n as [|n IH]; intros l; simpl; [lia|].
  destruct (Lexer_next l) as [[item|] l'] eqn:E; simpl; [|lia].
  pose proof (Lexer_next_progress l item l' E); specialize (IH l'); lia.
Qed.

Lemma lexer_collect_stable (n m : nat) (l : Lexer) :
  (lexer_size l < n)%nat -> (lexer_size l < m)%nat -> lexer_collect n l = lexer_collect m l.
Proof.
  revert m l; induction n as [|n IH]; intros m l Hn Hm; [lia|].
  destruct m as [|m]; [lia|]; simpl.
  destruct (Lexer_next l) as [[item|] l'] eqn:E; [|reflexivity].
  pose proof (Lexer_next_progress l item l' E); f_equal; apply IH; lia.
Qed.

(** Lexing whitespace only reaches the end of the input. *)
Lemma next_token_loop_whitespace (cs : list char) (pos : nat) (buf : list char) :
  forallb is_whitespace cs = true ->
  next_token_loop cs pos buf = Ok (TEof, mkCtx [] (pos + str_len cs) buf).
Proof.
  revert pos; induction cs as [|c cs IH]; intros pos H; simpl.
  - rewrite Nat.add_0_r; reflexivity.
  - apply andb_prop in H as [Hc H]; rewrite Hc, IH by exact H.
    rewrite Nat.add_assoc; reflexivity.
Qed.

(* ------------------------------------------------------------------ *)
(** ** Everything the parser returns comes from the lexer *)

(** [it] is an item of the token sequence of [input]. *)
Definition lexer_yields (input : list char) (it : Result (Token Num) LexerError) : Prop :=
  exists n, In it (lexer_collect n (Lexer_new input)).

(** The [Peekable] lexer of the parser only has items of [input] to give. *)
Definition peekable_from (input : list char) (st : Peekable) : Prop :=
  (forall it, peeked st = Some (Some it) -> lexer_yields input it)
  /\ (forall m it, In it (lexer_collect m (iter st)) -> lexer_yields input it).

(** The parser errors a run on [input] can return: a lexer error or an
    unexpected token of that input, or the end of it. *)
Definition parser_error_from (input : list char) (e : ParserError Num) : Prop :=
  match e with
  | PE_LexerError le => lexer_yields input (Err le)
  | PE_UnexpectedToken t => lexer_yields input (Ok t)
  | PE_UnexpectedEnd => True
  | PE_InvalidAssignment => False
  end.

(** The operator token a unary operator is read from. *)
Definition unary_token (u : UnaryOp) : Operator :=
  match u with
  | Negative => Minus
  | Positive => Plus
  end.

(** The numbers, names and operators of an expression are tokens of [input]. *)
Fixpoint expr_from (input : list char) (e : Expression Num) : Prop :=
  match e with
  | Number v => lexer_yields input (Ok (TNumber v))
  | Var x => lexer_yields input (Ok (TIdentifier x))
  | Unary u a => lexer_yields input (Ok (TOperator (unary_token u))) /\ expr_from input a
  | Binary l op r =>
      expr_from input l /\ lexer_yields input (Ok (TOperator op)) /\ expr_from input r
  | Call f a => lexer_yields input (Ok (TIdentifier f)) /\ expr_from input a
  end.

Definition stmt_from (input : list char) (s : Statement Num) : Prop :=
  match s with
  | StAssignment x e => lexer_yields input (Ok (TIdentifier x)) /\ expr_from input e
  | StExpression e => expr_from input e
  | StEmpty => True
  end.

(** A partial-correctness specification of a parser action on [input]:
    from a lexer of [input], it leaves a lexer of [input], its value meets
    [Q] and its error is one of [input]. *)
Definition pm_spec {A} (input : list char) (Q : A -> Prop) (m : PM A) : Prop :=
  forall st r st', peekable_from input st -> m st = Some (r, st') ->
    peekable_from input st'
    /\ match r with Ok x => Q x | Err e => parser_error_from input e end.

Section ParserSpec.

Variable input : list char.

Lemma pm_spec_ret {A} (Q : A -> Prop) (x : A) : Q x -> pm_spec input Q (pret x).
Proof. intros Hx st r st' H E; injection E as <- <-; auto. Qed.

Lemma pm_spec_throw {A} (Q : A -> Prop) (e : ParserError Num) :
  parser_error_from input e -> pm_spec input Q (pthrow e).
Proof. intros He st r st' H E; injection E as <- <-; auto. Qed.

Lemma pm_spec_out_of_fuel {A} (Q : A -> Prop) : pm_spec input Q out_of_fuel.
Proof. intros st r st' H E; discriminate. Qed.

Lemma pm_spec_bind {A B} (Q1 : A -> Prop) (Q : B -> Prop) (m : PM A) (k : A -> PM B) :
  pm_spec input Q1 m -> (forall x, Q1 x -> pm_spec input Q (k x)) ->
  pm_spec input Q (pbind m k).
Proof.
  intros Hm Hk st r st' H; unfold pbind.
  destruct (m st) as [[[x|e] st1]|] eqn:E; [| |discriminate].
  - destruct (Hm st _ st1 H E) as [H1 Hx]; exact (Hk x Hx st1 r st' H1).
  - intros F; injection F as <- <-; exact (Hm st _ st1 H E).
Qed.

Lemma pm_spec_bind_ret {A B} (Q : B -> Prop) (x : A) (k : A -> PM B) :
  pm_spec input Q (k x) -> pm_spec input Q (pbind (pret x) k).
Proof. intros Hk st r st' H E; exact (Hk st r st' H E). Qed.

Lemma lexer_collect_step (m : nat) (l l' : Lexer) (item : Result (Token Num) LexerError) :
  Lexer_next l = (Some item, l') -> lexer_collect (S m) l = item :: lexer_collect m l'.
Proof. intros E; simpl; rewrite E; reflexivity. Qed.

(** One item taken from the lexer of a [Peekable] of [input]. *)
Lemma peekable_from_next (st : Peekable) (item : option (Result (Token Num) LexerError)) (l' : Lexer) :
  peekable_from input st -> Lexer_next (iter st) = (item, l') ->
  (forall it, item = Some it -> lexer_yields input it)
  /\ (forall m it, In it (lexer_collect m l') -> lexer_yields input it).
Proof.
  intros [_ Hl] E; destruct item as [it0|].
  - split.
    + intros it F; injection F as <-; apply (Hl 1%nat); rewrite (lexer_collect_step 0 _ _ _ E).
      left; reflexivity.
    + intros m it Hin; apply (Hl (S m)); rewrite (lexer_collect_step m _ _ _ E); right; exact Hin.
  - rewrite (Lexer_next_end _ _ E); split; [discriminate|].
    intros m it; rewrite lexer_collect_none; intros [].
Qed.

Lemma pm_spec_peek :
  pm_spec input (fun o => match o with Some t => lexer_yields input (Ok t) | None => True end) peek.
Proof.
  intros st r st' H; unfold peek, peekable_peek.
  destruct (peeked st) as [item|] eqn:Hp.
  - destruct item as [[t|e]|]; intros F; injection F as <- <-; split; auto;
      apply (proj1 H); exact Hp.
  - destruct (Lexer_next (iter st)) as [item l'] eqn:E.
    destruct (peekable_from_next st item l' H E) as [Hi Hl].
    assert (peekable_from input (mkPeekable (Some item) l')) as H'.
    { split; [|exact Hl]; intros it F; injection F as ->; auto. }
    destruct item as [[t|e]|]; intros F; injection F as <- <-; split; simpl; auto.
Qed.

Lemma pm_spec_advance : pm_spec input (fun t => lexer_yields input (Ok t)) advance.
Proof.
  intros st r st' H; unfold advance, peekable_next.
  destruct (peeked st) as [item|] eqn:Hp.
  - assert (peekable_from input (mkPeekable None (iter st))) as H'
      by (split; [discriminate | exact (proj2 H)]).
    destruct item as [[t|e]|]; intros F; injection F as <- <-; split; simpl; auto;
      apply (proj1 H); exact Hp.
  - destruct (Lexer_next (iter st)) as [item l'] eqn:E.
    destruct (peekable_from_next st item l' H E) as [Hi Hl].
    assert (peekable_from input (mkPeekable None l')) as H' by (split; [discriminate | exact Hl]).
    destruct item as [[t|e]|]; intros F; injection F as <- <-; split; simpl; auto.
Qed.

Lemma pm_spec_weaken {A} (Q Q' : A -> Prop) (m : PM A) :
  (forall x, Q x -> Q' x) -> pm_spec input Q m -> pm_spec input Q' m.
Proof.
  intros HQ Hm st r st' H E; destruct (Hm st r st' H E) as [H' Hr].
  split; [exact H'|]; destruct r; auto.
Qed.

Lemma pm_spec_bind_peek {B} (Q : B -> Prop) (k : option (Token Num) -> PM B) :
  (forall o, match o with Some t => lexer_yields input (Ok t) | None => True end ->
     pm_spec input Q (k o)) ->
  pm_spec input Q (pbind peek k).
Proof. apply pm_spec_bind, pm_spec_peek. Qed.

Lemma pm_spec_bind_advance {B} (Q : B -> Prop) (k : Token Num -> PM B) :
  (forall t, lexer_yields input (Ok t) -> pm_spec input Q (k t)) ->
  pm_spec input Q (pbind advance k).
Proof. apply pm_spec_bind, pm_spec_advance. Qed.

Lemma pm_spec_expect (p : Punctuation) : pm_spec input (fun _ => True) (expect p).
Proof.
  unfold expect; apply pm_spec_bind_advance; intros t Ht.
  destruct t; try (apply pm_spec_throw; exact Ht).
  destruct (punctuation_eqb p p0); [apply pm_spec_ret; exact I | apply pm_spec_throw; exact Ht].
Qed.

Lemma pm_spec_bind_expect {B} (Q : B -> Prop) (p : Punctuation) (k : unit -> PM B) :
  (forall x, pm_spec input Q (k x)) -> pm_spec input Q (pbind (expect p) k).
Proof. intros Hk; apply (pm_spec_bind (fun _ => True)); [apply pm_spec_expect | auto]. Qed.

Lemma pm_spec_bind_unary {B} (Q : B -> Prop) (op : Operator) (k : UnaryOp -> PM B) :
  lexer_yields input (Ok (TOperator op)) ->
  (forall u, unary_token u = op -> pm_spec input Q (k u)) ->
  pm_spec input Q (pbind (lift (unary_try_from op)) k).
Proof.
  intros Hop Hk; apply (pm_spec_bind (fun u => unary_token u = op)); [|exact Hk].
  intros st r st' H E; destruct op; injection E as <- <-; split; auto.
Qed.

(** One step through a parser body. *)
Ltac spec_step :=
  match goal with
  | |- pm_spec _ _ (pbind peek _) => apply pm_spec_bind_peek; intros ?o ?Ho
  | |- pm_spec _ _ (pbind advance _) => apply pm_spec_bind_advance; intros ?t ?Ht
  | |- pm_spec _ _ (pbind (expect _) _) => apply pm_spec_bind_expect; intros ?
  | |- pm_spec _ _ (pbind (pret _) _) => apply pm_spec_bind_ret
  | |- pm_spec _ _ (pbind (lift (unary_try_from _)) _) =>
      apply pm_spec_bind_unary; [assumption | intros ?u ?Hu]
  | |- pm_spec _ _ (pbind (match ?x with _ => _ end) _) => destruct x
  | |- pm_spec _ _ (pthrow _) => apply pm_spec_throw; assumption
  | |- pm_spec _ _ (match ?x with _ => _ end) => destruct x
  | |- pm_spec _ _ (if ?b then _ else _) => destruct b
  | |- pm_spec _ _ out_of_fuel => apply pm_spec_out_of_fuel
  end.

Lemma pm_spec_descent (fuel : nat) :
  (forall t mp, lexer_yields input (Ok t) ->
     pm_spec input (expr_from input) (parse_expression fuel t mp))
  /\ (forall mp p, expr_from input p ->
     pm_spec input (expr_from input) (expression_loop fuel mp p))
  /\ (forall t, lexer_yields input (Ok t) ->
     pm_spec input (expr_from input) (parse_primary fuel t)).
Proof.
  induction fuel as [|f (He & Hl & Hp)].
  - split; [|split]; intros; apply pm_spec_out_of_fuel.
  - split; [|split].
    + intros t mp Ht; cbn [parse_expression].
      apply (pm_spec_bind (expr_from input)); [auto | intros x Hx; auto].
    + intros mp p Hp0; cbn [expression_loop]; repeat spec_step;
        try (apply pm_spec_ret; assumption).
      apply (pm_spec_bind (expr_from input)); [auto|intros x Hx].
      apply Hl; simpl; auto.
    + intros t Ht; cbn [parse_primary]; repeat spec_step;
        try (apply (pm_spec_bind (expr_from input)); [auto | intros ?x ?Hx]);
        repeat spec_step; apply pm_spec_ret; simpl;
        try match goal with H : unary_token _ = _ |- _ => rewrite H end; auto.
Qed.

Lemma pm_spec_parse_statement (fuel : nat) :
  pm_spec input (stmt_from input) (parse_statement fuel).
Proof.
  destruct (pm_spec_descent fuel) as (He & _ & _).
  unfold parse_statement, parse_assignment; repeat spec_step;
    try (apply pm_spec_ret; exact I);
    apply (pm_spec_bind (expr_from input)); auto; intros ?e ?He; apply pm_spec_ret; simpl; auto.
Qed.

Lemma pm_spec_program_loop (fuel : nat) (statements : list (Statement Num)) :
  Forall (stmt_from input) statements ->
  pm_spec input (Forall (stmt_from input)) (program_loop fuel statements).
Proof.
  revert statements; induction fuel as [|f IH]; intros statements Hs; cbn [program_loop].
  - apply pm_spec_out_of_fuel.
  - repeat spec_step; try (apply pm_spec_ret; exact Hs).
    apply (pm_spec_bind (stmt_from input)); [apply pm_spec_parse_statement | intros s Hst].
    assert (Forall (stmt_from input) (statements ++ [s])) as Hs'
      by (apply Forall_app; auto).
    destruct s; repeat spec_step; apply IH; exact Hs'.
Qed.

End ParserSpec.

(** Every item of the lexer of [input] is read from [input]. *)
Lemma lexer_yields_in_input (input : list char) (it : Result (Token Num) LexerError) :
  lexer_yields input it -> lexer_item_in input it.
Proof. intros [n Hn]; exact (lexer_items_in_input input n it Hn). Qed.

(** The result of [Parser::parse_program] on [input]: its statements are
    made of tokens of [input], its errors are those of [input]. *)
Lemma parse_input_from_input (input : list char) :
  match parse_input input with
  | Some (Ok statements) => Forall (stmt_from input) statements
  | Some (Err e) => parser_error_from input e
  | None => True
  end.
Proof.
  unfold parse_input, parse_program.
  destruct (program_loop _ [] _) as [[r st]|] eqn:E; simpl; [|exact I].
  assert (peekable_from input (Parser_new input)) as H0.
  { split; [discriminate|]; intros m it Hin; exists m; exact Hin. }
  destruct (pm_spec_program_loop input _ [] (List.Forall_nil _) _ r st H0 E) as [_ Hr].
  destruct r; exact Hr.
Qed.

(* ------------------------------------------------------------------ *)
(** ** Names and numbers of syntax trees *)

(** The variables an expression reads; a call's function name is looked up
    among the builtins, not in the environment. *)
Fixpoint expr_vars (e : Expression Num) : list (list char) :=
  match e with
  | Number _ => []
  | Var x => [x]
  | Unary _ a => expr_vars a
  | Binary l _ r => expr_vars l ++ expr_vars r
  | Call _ a => expr_vars a
  end.

(** The function names an expression calls. *)
Fixpoint expr_calls (e : Expression Num) : list (list char) :=
  match e with
  | Number _ | Var _ => []
  | Unary _ a => expr_calls a
  | Binary l _ r => expr_calls l ++ expr_calls r
  | Call f a => f :: expr_calls a
  end.

(** The numbers written in an expression. *)
Fixpoint expr_numbers (e : Expression Num) : list Num :=
  match e with
  | Number v => [v]
  | Var _ => []
  | Unary _ a => expr_numbers a
  | Binary l _ r => expr_numbers l ++ expr_numbers r
  | Call _ a => expr_numbers a
  end.

Definition stmt_numbers (s : Statement Num) : list Num :=
  match s with
  | StAssignment _ e | StExpression e => expr_numbers e
  | StEmpty => []
  end.

(** The names of a statement: the variable it assigns, the variables it
    reads and the functions it calls. *)
Definition stmt_names (s : Statement Num) : list (list char) :=
  match s with
  | StAssignment x e => x :: expr_vars e ++ expr_calls e
  | StExpression e => expr_vars e ++ expr_calls e
  | StEmpty => []
  end.

Lemma expr_from_leaves (input : list char) (e : Expression Num) :
  expr_from input e ->
  (forall x, In x (expr_vars e ++ expr_calls e) -> lexer_yields input (Ok (TIdentifier x)))
  /\ (forall v, In v (expr_numbers e) -> lexer_yields input (Ok (TNumber v))).
Proof.
  induction e as [n|v|u a IH|l IHl op r IHr|f a IH]; simpl.
  - intros H; split; [intros x [] | intros v [<- | []]; exact H].
  - intros H; split; [intros x [<- | []]; exact H | intros w []].
  - intros [_ H]; exact (IH H).
  - intros (Hl & _ & Hr); destruct (IHl Hl) as [Hl1 Hl2]; destruct (IHr Hr) as [Hr1 Hr2].
    split.
    + intros x Hx; rewrite !in_app_iff in Hx; destruct Hx as [[H|H]|[H|H]];
        [apply Hl1 | apply Hr1 | apply Hl1 | apply Hr1]; apply in_app_iff; auto.
    + intros v Hv; apply in_app_iff in Hv as [H|H]; auto.
  - intros [Hf H]; destruct (IH H) as [H1 H2]; split; [|exact H2].
    intros x Hx; apply in_app_or in Hx; destruct Hx as [Hx | [<- | Hx]]; auto;
      apply H1, in_or_app; auto.
Qed.

Lemma stmt_from_leaves (input : list char) (s : Statement Num) :
  stmt_from input s ->
  (forall x, In x (stmt_names s) -> lexer_yields input (Ok (TIdentifier x)))
  /\ (forall v, In v (stmt_numbers s) -> lexer_yields input (Ok (TNumber v))).
Proof.
  destruct s as [y e|e|]; simpl.
  - intros [Hy He]; destruct (expr_from_leaves input e He) as [H1 H2].
    split; [intros x [<- | Hx]; auto | exact H2].
  - intros He; exact (expr_from_leaves input e He).
  - intros _; split; intros ? [].
Qed.

Lemma yields_identifier (input name : list char) :
  lexer_yields input (Ok (TIdentifier name)) ->
  identifier_text name /\ exists pre rest, input = pre ++ name ++ rest.
Proof.
  intros H; destruct (lexer_yields_in_input input _ H) as (pre & text & rest & -> & [<- Ht] & _).
  eauto.
Qed.

Lemma yields_number (input : list char) (v : Num) :
  lexer_yields input (Ok (TNumber v)) ->
  exists pre text rest, input = pre ++ text ++ rest /\ numeral text /\ from_str_radix text = Some v.
Proof.
  intros H; destruct (lexer_yields_in_input input _ H) as (pre & text & rest & -> & [Hn Hv] & _).
  eauto 6.
Qed.

(* ------------------------------------------------------------------ *)
(** ** Evaluation and the environment *)

Lemma eval_expression_undefined (env : Env) (e : Expression Num) (x : list char) :
  eval_expression env e = Err (EE_UndefinedVariable x) -> In x (expr_vars e) /\ env !! x = None.
Proof.
  induction e as [n|v|u a IH|l IHl op r IHr|f a IH]; simpl.
  - discriminate.
  - destruct (env !! v) eqn:E; [discriminate|]; intros F; injection F as ->; auto.
  - destruct (eval_expression env a); [discriminate|]; intros F; injection F as ->; auto.
  - destruct (eval_expression env l) as [vl|el].
    + destruct (eval_expression env r) as [vr|er].
      * destruct (op_apply op vl vr); discriminate.
      * intros F; injection F as ->; destruct (IHr eq_refl); split; [apply in_or_app|]; auto.
    + intros F; injection F as ->; destruct (IHl eq_refl); split; [apply in_or_app|]; auto.
  - destruct (eval_expression env a) as [va|ea]; [|intros F; injection F as ->; auto].
    destruct (builtin_call f va); discriminate.
Qed.

Lemma eval_expression_unknown (env : Env) (e : Expression Num) (f : list char) :
  eval_expression env e = Err (EE_UnknownFunction f) -> In f (expr_calls e).
Proof.
  induction e as [n|v|u a IH|l IHl op r IHr|g a IH]; simpl.
  - discriminate.
  - destruct (env !! v); discriminate.
  - destruct (eval_expression env a); [discriminate|]; intros F; injection F as ->; auto.
  - destruct (eval_expression env l) as [vl|el].
    + destruct (eval_expression env r) as [vr|er].
      * destruct (op_apply op vl vr); discriminate.
      * intros F; injection F as ->; apply in_or_app; auto.
    + intros F; injection F as ->; apply in_or_app; auto.
  - destruct (eval_expression env a) as [va|ea]; [|intros F; injection F as ->; auto].
    destruct (builtin_call g va); [discriminate|]; intros F; injection F as ->; left; reflexivity.
Qed.

Lemma eval_statement_env (env : Env) (s : Statement Num) (x : list char) :
  ((exists e, s = StAssignment x e) \/ snd (eval_statement env s) !! x = env !! x)
  /\ (env !! x <> None -> snd (eval_statement env s) !! x <> None).
Proof.
  destruct s as [y e|e|]; simpl.
  - destruct (eval_expression env e); simpl; [|auto].
    rewrite lookup_insert; destruct (decide (y = x)) as [->|_]; [|auto].
    split; [eauto | intros _; discriminate].
  - destruct (eval_expression env e); simpl; auto.
  - auto.
Qed.

Lemma eval_statements_env (statements : list (Statement Num))
  (res : Result (option Num) (EvaluatorError Num)) (env : Env) (x : list char) :
  (snd (eval_statements res env statements) !! x <> env !! x ->
     exists e, In (StAssignment x e) statements)
  /\ (env !! x <> None -> snd (eval_statements res env statements) !! x <> None).
Proof.
  revert res env; induction statements as [|s rest IH]; intros res env.
  - simpl; split; [intros H; contradiction H; reflexivity | auto].
  - rewrite eval_statements_cons.
    destruct (IH (fst (eval_statement env s)) (snd (eval_statement env s))) as [H1 H2].
    destruct (eval_statement_env env s x) as [H3 H4].
    split.
    + intros H; destruct H3 as [[e ->] | E]; [exists e; left; reflexivity|].
      rewrite <- E in H; destruct (H1 H) as [e He]; exists e; right; exact He.
    + intros H; apply H2, H4, H.
Qed.

Lemma eval_statements_app (res : Result (option Num) (EvaluatorError Num)) (env : Env)
  (ss1 ss2 : list (Statement Num)) :
  eval_statements res env (ss1 ++ ss2)
  = eval_statements (fst (eval_statements res env ss1)) (snd (eval_statements res env ss1)) ss2.
Proof.
  unfold eval_statements; rewrite fold_left_app.
  destruct (fold_left _ ss1 (res, env)); reflexivity.
Qed.

Lemma eval_statements_snoc (res : Result (option Num) (EvaluatorError Num)) (env : Env)
  (ss : list (Statement Num)) (s : Statement Num) :
  eval_statements res env (ss ++ [s]) = eval_statement (snd (eval_statements res env ss)) s.
Proof. rewrite eval_statements_app; reflexivity. Qed.

(* ------------------------------------------------------------------ *)
(** ** Further properties of the lexer, the parser and the evaluator *)

(** X1: every [Number(v)] item of the lexer of [input] is read from a piece
    of [input] that matches [DIGIT+('.'DIGIT+)?] and that the backend parses
    to [v]; the piece is the longest one: no digit follows it, and no ['.']
    unless it has one. *)
Theorem lexer_number_from_numeral (input : list char) (n : nat) (v : Num) :
  In (Ok (TNumber v)) (lexer_collect n (Lexer_new input)) ->
  exists pre text rest, input = pre ++ text ++ rest
    /\ numeral text /\ from_str_radix text = Some v
    /\ forall c r, rest = c :: r -> is_ascii_digit c = false /\ (c = 46 -> In 46 text).
Proof.
  intros H; destruct (lexer_items_in_input input n _ H)
    as (pre & text & rest & -> & [Hn Hv] & Hend).
  exists pre, text, rest; auto.
Qed.

(** X2: every [Identifier(name)] item of the lexer of [input] is a piece
    of [input] made of an ASCII letter then ASCII letters, digits and
    ['_'], and the next character of [input], if any, is none of these. *)
Theorem lexer_identifier_from_input (input : list char) (n : nat) (name : list char) :
  In (Ok (TIdentifier name)) (lexer_collect n (Lexer_new input)) ->
  identifier_text name
  /\ exists pre rest, input = pre ++ name ++ rest
       /\ forall c r, rest = c :: r -> ident_char c = false.
Proof.
  intros H; destruct (lexer_items_in_input input n _ H)
    as (pre & text & rest & -> & [<- Ht] & Hend).
  split; [exact Ht | exists pre, rest; auto].
Qed.

(** X3: the positions of lexer errors are UTF-8 byte offsets into the
    input: [UnexpectedChar(c, p)] is a character [c] no token starts with,
    found at byte offset [p]; [InvalidNumber(b, p)] carries a non-empty piece
    [b] of the input that ends at byte offset [p]. *)
Theorem lexer_error_offsets (input : list char) (n : nat) (e : LexerError) :
  In (Err e) (lexer_collect n (Lexer_new input)) ->
  match e with
  | UnexpectedChar c p =>
      exists pre rest, input = pre ++ c :: rest /\ p = str_len pre /\ unexpected_char c
  | InvalidNumber b p =>
      exists pre rest, input = pre ++ b ++ rest /\ p = str_len (pre ++ b) /\ b <> []
  end.
Proof. intros H; exact (lexer_items_in_input input n _ H). Qed.

(** X4: the lexer of [input] yields at most one item per character of
    [input], and after [length input + 1] calls of [next] it yields nothing
    more. *)
Theorem lexer_token_count (input : list char) :
  (forall n, (length (lexer_collect n (Lexer_new input)) <= length input)%nat)
  /\ (forall k, lexer_collect (S (length input) + k) (Lexer_new input)
               = lexer_collect (S (length input)) (Lexer_new input)).
Proof.
  split.
  - intros n; exact (lexer_collect_length n (Lexer_new input)).
  - intros k; apply lexer_collect_stable; simpl; lia.
Qed.

Lemma parse_fuel_S (input : list char) : parse_fuel input = S (4 * length input + 7).
Proof. unfold parse_fuel; lia. Qed.

(** X5: an input of whitespace only (the empty input among them) yields no
    token, parses to no statement, and [Evaluator::parse] returns
    [UnexpectedError] on it and keeps the environment. *)
Theorem whitespace_only_input (env : Env) (input : list char) :
  forallb is_whitespace input = true ->
  Lexer_next (Lexer_new input) = (None, None)
  /\ parse_input input = Some (Ok [])
  /\ Evaluator_parse env input = Some (Err EE_UnexpectedError, env).
Proof.
  intros H.
  assert (Lexer_next (Lexer_new input) = (None, None)) as Hl.
  { unfold Lexer_new, Lexer_next, next_token, FSMContext_new; cbn [chars position buffer].
    rewrite next_token_loop_whitespace by exact H; reflexivity. }
  assert (parse_input input = Some (Ok [])) as Hp.
  { unfold parse_input, parse_program; rewrite parse_fuel_S; cbn [program_loop].
    unfold pbind, peek, peekable_peek, Parser_new; cbn [peeked iter]; rewrite Hl; reflexivity. }
  split; [exact Hl | split; [exact Hp|]].
  unfold Evaluator_parse; rewrite Hp; reflexivity.
Qed.

(** X6: when the first item of the lexer is an error, the parser returns it
    as [ParserError::LexerError], and [Evaluator::parse] returns that error
    and keeps the environment. *)
Theorem first_lexer_error_reported (input : list char) (e : LexerError) (l' : Lexer) :
  Lexer_next (Lexer_new input) = (Some (Err e), l') ->
  parse_input input = Some (Err (PE_LexerError e))
  /\ forall env, Evaluator_parse env input = Some (Err (EE_ParserError (PE_LexerError e)), env).
Proof.
  intros Hl.
  assert (parse_input input = Some (Err (PE_LexerError e))) as Hp.
  { unfold parse_input, parse_program; rewrite parse_fuel_S; cbn [program_loop].
    unfold pbind, peek, peekable_peek, Parser_new; cbn [peeked iter]; rewrite Hl; reflexivity. }
  split; [exact Hp|]; intros env; unfold Evaluator_parse; rewrite Hp; reflexivity.
Qed.

(** X7: [Parser::peek] consumes nothing: peeking again gives the same
    answer, and [Parser::advance] then returns the peeked token, or
    [UnexpectedEnd] where [peek] saw the end, or the same lexer error. *)
Theorem peek_then_advance (st : Peekable) (r : Result (option (Token Num)) (ParserError Num))
  (st' : Peekable) :
  peek st = Some (r, st') ->
  peek st' = Some (r, st')
  /\ advance st' = Some (match r with
                        | Ok (Some t) => Ok t
                        | Ok None => Err PE_UnexpectedEnd
                        | Err e => Err e
                        end, mkPeekable None (iter st')).
Proof.
  unfold peek, advance, peekable_peek, peekable_next.
  destruct st as [[item|] l]; cbn [peeked iter].
  - destruct item as [[t|e]|]; intros F; injection F as <- <-; auto.
  - destruct (Lexer_next l) as [item l']; cbn [peeked iter].
    destruct item as [[t|e]|]; intros F; injection F as <- <-; auto.
Qed.

(** X8: the errors of [Parser::parse_program] point into the input: a lexer
    error is an item the lexer of the input yields, hence with its byte
    offset into the input; an unexpected token is a token the lexer of the
    input yields, read from a piece of the input (so never [Eof]); and
    [InvalidAssignment] never occurs. *)
Theorem parser_errors_point_into_input (input : list char) (e : ParserError Num) :
  parse_input input = Some (Err e) ->
  match e with
  | PE_LexerError le => lexer_yields input (Err le) /\ lexer_item_in input (Err le)
  | PE_UnexpectedToken t => lexer_yields input (Ok t) /\ lexer_item_in input (Ok t)
  | PE_UnexpectedEnd => True
  | PE_InvalidAssignment => False
  end.
Proof.
  intros H; pose proof (parse_input_from_input input) as Hin; rewrite H in Hin.
  destruct e; simpl in Hin; auto; (split; [exact Hin | apply lexer_yields_in_input; exact Hin]).
Qed.

(** X9: every number in a parsed program is the backend's parse of a piece
    of the input matching [DIGIT+('.'DIGIT+)?]. *)
Theorem parsed_numbers_are_numerals (input : list char) (statements : list (Statement Num))
  (s : Statement Num) (v : Num) :
  parse_input input = Some (Ok statements) -> In s statements -> In v (stmt_numbers s) ->
  exists pre text rest, input = pre ++ text ++ rest /\ numeral text /\ from_str_radix text = Some v.
Proof.
  intros H Hs Hv; pose proof (parse_input_from_input input) as Hin; rewrite H in Hin.
  apply yields_number.
  exact (proj2 (stmt_from_leaves input s (proj1 (List.Forall_forall _ _) Hin s Hs)) v Hv).
Qed.

(** X10: every name in a parsed program (assigned variable, variable read,
    function called) is an identifier written in the input. *)
Theorem parsed_names_are_identifiers (input : list char) (statements : list (Statement Num))
  (s : Statement Num) (x : list char) :
  parse_input input = Some (Ok statements) -> In s statements -> In x (stmt_names s) ->
  identifier_text x /\ exists pre rest, input = pre ++ x ++ rest.
Proof.
  intros H Hs Hx; pose proof (parse_input_from_input input) as Hin; rewrite H in Hin.
  apply yields_identifier.
  exact (proj1 (stmt_from_leaves input s (proj1 (List.Forall_forall _ _) Hin s Hs)) x Hx).
Qed.

(** X11: [Evaluator::eval_expression] reads the environment only at the
    variables of the expression: two environments that agree there give
    the same result (function names are not looked up in it). *)
Theorem eval_expression_reads_only_its_variables (env env' : Env) (e : Expression Num) :
  (forall x, In x (expr_vars e) -> env !! x = env' !! x) ->
  eval_expression env e = eval_expression env' e.
Proof.
  induction e as [n|v|u a IH|l IHl op r IHr|f a IH]; simpl; intros H.
  - reflexivity.
  - rewrite (H v (or_introl eq_refl)); reflexivity.
  - rewrite IH by exact H; reflexivity.
  - rewrite IHl, IHr by (intros x Hx; apply H, in_or_app; auto); reflexivity.
  - rewrite IH by exact H; reflexivity.
Qed.

(** X13: [Evaluator::parse] changes the environment only at names that the
    parsed input assigns, and never removes a binding. *)
Theorem Evaluator_parse_env_changes (env : Env) (input : list char)
  (r : Result (option Num) (EvaluatorError Num)) (env' : Env) :
  Evaluator_parse env input = Some (r, env') ->
  (forall x, env' !! x <> env !! x ->
     exists statements e, parse_input input = Some (Ok statements)
       /\ In (StAssignment x e) statements)
  /\ (forall x, env !! x <> None -> env' !! x <> None).
Proof.
  unfold Evaluator_parse; destruct (parse_input input) as [[statements|pe]|]; intros E;
    [| |discriminate].
  - injection E as E; split; intros x Hx;
      destruct (eval_statements_env statements (Err EE_UnexpectedError) env x) as [H1 H2];
      rewrite E in H1, H2; simpl in H1, H2.
    + destruct (H1 Hx) as [e He]; eauto.
    + exact (H2 Hx).
  - injection E as _ <-; split; [intros x Hx; contradiction Hx; reflexivity | auto].
Qed.

Lemma eval_statement_name_error (env : Env) (s : Statement Num) (err : EvaluatorError Num) :
  fst (eval_statement env s) = Err err ->
  match err with
  | EE_UndefinedVariable x => In x (stmt_names s) /\ env !! x = None
  | EE_UnknownFunction f => In f (stmt_names s)
  | _ => True
  end.
Proof.
  assert (forall e, eval_expression env e = Err err ->
            match err with
            | EE_UndefinedVariable x => In x (expr_vars e ++ expr_calls e) /\ env !! x = None
            | EE_UnknownFunction f => In f (expr_vars e ++ expr_calls e)
            | _ => True
            end) as He.
  { intros e Ee; destruct err as [| | |x|f|]; auto.
    - destruct (eval_expression_undefined env e x Ee); split; [apply in_or_app|]; auto.
    - apply in_or_app; right; exact (eval_expression_unknown env e f Ee). }
  destruct s as [y e|e|]; simpl.
  - destruct (eval_expression env e) eqn:Ee; simpl; [discriminate|].
    intros F; injection F as ->; specialize (He e Ee).
    destruct err as [| | |x|f|]; simpl; tauto.
  - destruct (eval_expression env e) eqn:Ee; simpl; [discriminate|].
    intros F; injection F as ->; exact (He e Ee).
  - discriminate.
Qed.

(** X14: when [Evaluator::parse] fails with [UndefinedVariable(x)], [x] is an
    identifier written in the input and unbound in the environment it
    started from; when it fails with [UnknownFunction(f)], [f] is an
    identifier written in the input. *)
Theorem evaluator_name_errors_from_input (env : Env) (input : list char)
  (err : EvaluatorError Num) (env' : Env) :
  Evaluator_parse env input = Some (Err err, env') ->
  match err with
  | EE_UndefinedVariable x =>
      env !! x = None /\ identifier_text x /\ exists pre rest, input = pre ++ x ++ rest
  | EE_UnknownFunction f => identifier_text f /\ exists pre rest, input = pre ++ f ++ rest
  | _ => True
  end.
Proof.
  unfold Evaluator_parse; pose proof (parse_input_from_input input) as Hin.
  destruct (parse_input input) as [[statements|pe]|]; intros E; [| |discriminate].
  - injection E as E.
    destruct statements as [|s0 ss0 _] using rev_ind.
    { injection E as <- _; exact I. }
    rewrite eval_statements_snoc in E.
    assert (Hs : stmt_from input s0)
      by (apply (proj1 (List.Forall_forall _ _) Hin), in_or_app; right; left; reflexivity).
    destruct (stmt_from_leaves input s0 Hs) as [Hnames _].
    pose proof (eval_statement_name_error
                  (snd (eval_statements (Err EE_UnexpectedError) env ss0)) s0 err) as Hn.
    rewrite E in Hn; specialize (Hn eq_refl).
    destruct err as [| | |x|f|]; auto.
    + destruct Hn as [Hx Hu]; split.
      * destruct (env !! x) eqn:Ex; [|reflexivity].
        exfalso; refine (proj2 (eval_statements_env ss0 (Err EE_UnexpectedError) env x) _ Hu).
        rewrite Ex; discriminate.
      * exact (yields_identifier input x (Hnames x Hx)).
    + exact (yields_identifier input f (Hnames f Hn)).
  - injection E as <- _; exact I.
Qed.

(* ------------------------------------------------------------------ *)
(** ** Calls *)

(** The amended reading of a call, following the words of the claim: once
    the [(] after the function name is consumed, the argument is a full
    expression parsed at minimum precedence 0, then the matching [)] is
    expected. *)
Definition call_argument_spec (fuel : nat) (f : list char) : PM (Expression Num) :=
  let! _ := advance in
  let! t := advance in
  let! a := parse_expression fuel t 0 in
  let! _ := expect RightParenthesis in
  pret (Call f a).

(** After [peek], [advance] returns the peeked item. *)
Lemma advance_after_peek (st : Peekable) (r : Result (option (Token Num)) (ParserError Num))
  (st' : Peekable) :
  peek st = Some (r, st') ->
  advance st' = Some (match r with
                      | Ok (Some t) => Ok t
                      | Ok None => Err PE_UnexpectedEnd
                      | Err e => Err e
                      end, mkPeekable None (iter st')).
Proof.
  unfold peek, advance, peekable_peek, peekable_next.
  destruct st as [[item|] l]; cbn [peeked iter].
  - destruct item as [[t|e]|]; intros F; injection F as <- <-; reflexivity.
  - destruct (Lexer_next l) as [item l']; cbn [peeked iter].
    destruct item as [[t|e]|]; intros F; injection F as <- <-; reflexivity.
Qed.

Lemma parse_primary_call (fuel : nat) (f : list char) (st st1 : Peekable) :
  peek st = Some (Ok (Some (TPunctuation LeftParenthesis)), st1) ->
  parse_primary (S (S fuel)) (TIdentifier f) st = call_argument_spec fuel f st1.
Proof.
  intros Hp; pose proof (advance_after_peek _ _ _ Hp) as Ha.
  unfold call_argument_spec; cbn [parse_primary].
  unfold pbind at 1; rewrite Hp.
  unfold pbind at 1; rewrite Ha.
  unfold pbind; rewrite Ha; clear Hp Ha.
  destruct (advance (mkPeekable None (iter st1))) as [[[t|e] s2]|]; try reflexivity.
  destruct (parse_expression fuel t 0 s2) as [[[a|e] s3]|]; try reflexivity.
  destruct (expect RightParenthesis s3) as [[[u|e] s4]|]; reflexivity.
Qed.

End Pipeline.

Arguments finish_number {Num}.
Arguments Lexer_next {Num}.
Arguments lexer_collect {Num}.
Arguments parse_program {Num}.
Arguments parse_input {Num}.
Arguments unary_apply {Num}.
Arguments eval_expression {Num}.
Arguments eval_statement {Num}.
Arguments eval_statements {Num}.
Arguments Evaluator_parse {Num}.

(* ------------------------------------------------------------------ *)
(** ** The pipeline on concrete inputs, for every numeric backend *)

Section Concrete.

Variable Num : Type.
Variable from_str_radix : list char -> option Num.
Variable zero : Num.
Variable sub : Num -> Num -> Num.
Variable op_apply : Operator -> Num -> Num -> Result Num string.
Variable builtin_call : list char -> Num -> option Num.

(** The backend's radix-10 parser with its values on the given numerals
    written out; by [numerals_table_ext] it is the backend's parser. *)
Fixpoint numerals_table (table : list (list char * Num)) (cs : list char) : option Num :=
  match table with
  | [] => from_str_radix cs
  | (t, v) :: rest => if decide (cs = t) then Some v else numerals_table rest cs
  end.

Lemma numerals_table_ext (table : list (list char * Num)) :
  Forall (fun '(t, v) => from_str_radix t = Some v) table ->
  from_str_radix = numerals_table table.
Proof.
  intros Ht; apply functional_extensionality; intros cs.
  induction Ht as [|[t v] table Hv Ht IH]; simpl; [reflexivity|].
  destruct (decide (cs = t)) as [->|_]; [exact Hv | exact IH].
Qed.

(** Evaluate with the backend's parser replaced by its table. *)
Ltac run_with table :=
  rewrite (numerals_table_ext table) by (repeat constructor; assumption);
  vm_compute; reflexivity.

(** ** C4 *)
(** C4: precedence climbing: ["2 + 3 * 4;"] parses as
    [Binary(2, Plus, Binary(3, Star, 4))] and ["2 ^ 3 ^ 2;"] as
    [Binary(2, Caret, Binary(3, Caret, 2))], [Caret] folding to the right. *)
Theorem precedence_climbing_examples (n2 n3 n4 : Num)
  (H2 : from_str_radix (str "2") = Some n2)
  (H3 : from_str_radix (str "3") = Some n3)
  (H4 : from_str_radix (str "4") = Some n4) :
  parse_input from_str_radix (str "2 + 3 * 4;")
    = Some (Ok [StExpression (Binary (Number n2) Plus (Binary (Number n3) Star (Number n4)))])
  /\ parse_input from_str_radix (str "2 ^ 3 ^ 2;")
    = Some (Ok [StExpression (Binary (Number n2) Caret (Binary (Number n3) Caret (Number n2)))]).
Proof.
  split; run_with [(str "2", n2); (str "3", n3); (str "4", n4)].
Qed.

(** ** C2 *)
(** C2 (amended): when a function name is followed by [(] (the next token
    [peek] returns), [parse_primary] consumes the [(] and parses the
    argument by calling itself on that [(] token, that is: it parses a full
    expression at minimum precedence 0 from the token after the [(] and
    then expects the matching [)], the whole being [Call(f, argument)]; so
    ["f(1+2);"] parses as a [Call] whose argument is [Binary(1, Plus, 2)],
    as ["sqrt(2 + 3);"] does in the parser's tests. *)
Theorem call_argument_is_parenthesised_expression (n1 n2 n3 : Num)
  (H1 : from_str_radix (str "1") = Some n1)
  (H2 : from_str_radix (str "2") = Some n2)
  (H3 : from_str_radix (str "3") = Some n3) :
  (forall fuel f st st1,
     peek Num from_str_radix st = Some (Ok (Some (TPunctuation LeftParenthesis)), st1) ->
     parse_primary Num from_str_radix (S (S fuel)) (TIdentifier f) st
     = call_argument_spec Num from_str_radix fuel f st1)
  /\ parse_input from_str_radix (str "f(1+2);")
    = Some (Ok [StExpression (Call (str "f") (Binary (Number n1) Plus (Number n2)))])
  /\ parse_input from_str_radix (str "sqrt(2 + 3);")
    = Some (Ok [StExpression (Call (str "sqrt") (Binary (Number n2) Plus (Number n3)))]).
Proof.
  split; [exact (parse_primary_call Num from_str_radix)|].
  split; run_with [(str "1", n1); (str "2", n2); (str "3", n3)].
Qed.

(** ** C10 *)
(** C10: neither the parser's [InvalidAssignment] nor the evaluator's
    [InvalidAssignment(name)] is ever returned; an assignment to a number,
    as in ["5 = 3;"], is an [UnexpectedToken] error at the [=]. *)
Theorem invalid_assignment_unreachable (v5 : Num)
  (H5 : from_str_radix (str "5") = Some v5) :
  (forall input, parse_input from_str_radix input <> Some (Err PE_InvalidAssignment))
  /\ (forall env input name env',
        Evaluator_parse from_str_radix zero sub op_apply builtin_call env input
        <> Some (Err (EE_InvalidAssignment name), env'))
  /\ parse_input from_str_radix (str "5 = 3;")
     = Some (Err (PE_UnexpectedToken (TPunctuation Assignment))).
Proof.
  split; [|split].
  - apply parse_input_not_invalid_assignment.
  - apply Evaluator_parse_not_invalid_assignment.
  - run_with [(str "5", v5)].
Qed.

(** ** C8 *)
(** C8: an assignment stores its value under the name and yields no
    value; expression and empty statements, and inputs whose statements
    are not assignments or that fail to parse, leave the environment as it
    is; and after ["x = 5; x + 1;"], which yields [6], [x] is bound to [5]
    for the next input. *)
Theorem environment_mutated_only_by_assignment (five one six : Num)
  (H5 : from_str_radix (str "5") = Some five)
  (H1 : from_str_radix (str "1") = Some one)
  (Hadd : op_apply Plus five one = Ok six) :
  (forall env x e v,
     eval_expression zero sub op_apply builtin_call env e = Ok v ->
     eval_statement zero sub op_apply builtin_call env (StAssignment x e)
     = (Ok None, <[x := v]> env))
  /\ (forall env e, snd (eval_statement zero sub op_apply builtin_call env (StExpression e)) = env)
  /\ (forall env, eval_statement zero sub op_apply builtin_call env StEmpty = (Ok None, env))
  /\ (forall env input statements r env',
        parse_input from_str_radix input = Some (Ok statements) ->
        Forall (fun s => match s with StAssignment _ _ => False | _ => True end) statements ->
        Evaluator_parse from_str_radix zero sub op_apply builtin_call env input = Some (r, env') ->
        env' = env)
  /\ (forall env input pe,
        parse_input from_str_radix input = Some (Err pe) ->
        Evaluator_parse from_str_radix zero sub op_apply builtin_call env input
        = Some (Err (EE_ParserError pe), env))
  /\ Evaluator_parse from_str_radix zero sub op_apply builtin_call empty (str "x = 5; x + 1;")
     = Some (Ok (Some six), <[str "x" := five]> empty)
  /\ Evaluator_parse from_str_radix zero sub op_apply builtin_call
       (<[str "x" := five]> empty) (str "x;")
     = Some (Ok (Some five), <[str "x" := five]> empty).
Proof.
  split; [|split; [|split; [|split; [|split; [|split]]]]].
  - intros env x e v E; simpl; rewrite E; reflexivity.
  - intros env e; simpl; destruct (eval_expression _ _ _ _ env e); reflexivity.
  - reflexivity.
  - intros env input statements r env' Hp Hs E; unfold Evaluator_parse in E; rewrite Hp in E.
    injection E as E; pose proof (eval_statements_frame Num zero sub op_apply builtin_call statements
                                   (Err EE_UnexpectedError) env Hs) as F.
    rewrite E in F; exact F.
  - intros env input pe Hp; unfold Evaluator_parse; rewrite Hp; reflexivity.
  - rewrite (numerals_table_ext [(str "5", five); (str "1", one)]) by (repeat constructor; assumption).
    vm_compute; rewrite Hadd; reflexivity.
  - vm_compute; reflexivity.
Qed.

(** ** C9 *)
(** C9: a variable absent from the environment fails with
    [UndefinedVariable(name)] (["y;"] on a fresh evaluator); a call first
    evaluates its argument, whose error it returns, and then fails with
    [UnknownFunction(name)] exactly when the builtins return nothing. *)
Theorem undefined_variable_and_unknown_function :
  (forall env name, env !! name = None ->
     eval_expression zero sub op_apply builtin_call env (Var name) = Err (EE_UndefinedVariable name))
  /\ Evaluator_parse from_str_radix zero sub op_apply builtin_call empty (str "y;")
     = Some (Err (EE_UndefinedVariable (str "y")), empty)
  /\ (forall env f a err,
        eval_expression zero sub op_apply builtin_call env a = Err err ->
        eval_expression zero sub op_apply builtin_call env (Call f a) = Err err)
  /\ (forall env f a v,
        eval_expression zero sub op_apply builtin_call env a = Ok v ->
        (eval_expression zero sub op_apply builtin_call env (Call f a) = Err (EE_UnknownFunction f)
         <-> builtin_call f v = None)).
Proof.
  split; [|split; [|split]].
  - intros env name H; simpl; rewrite H; reflexivity.
  - vm_compute; reflexivity.
  - intros env f a err E; simpl; rewrite E; reflexivity.
  - intros env f a v E; simpl; rewrite E.
    destruct (builtin_call f v); split; congruence.
Qed.

End Concrete.


(* ------------------------------------------------------------------ *)
(** ** The rational backend: witnesses and counterexamples *)

Abbreviation QEvaluator_parse :=
  (Evaluator_parse QBackend.from_str_radix QBackend.zero QBackend.sub
     QBackend.op_apply QBackend.builtin_call).

(** ** C1 *)
(** C1 (the loop of [Evaluator::parse] does not stop at a failing
    statement): on a fresh evaluator ["y; 1;"] returns [Ok(Some(1))], the
    [UndefinedVariable("y")] of the first statement being overwritten, and
    ["y; x = 5;"] still binds [x] after the failure. *)
Theorem evaluation_continues_after_failed_statement :
  QEvaluator_parse empty (str "y; 1;") = Some (Ok (Some (1 # 1)%Q), empty)
  /\ QEvaluator_parse empty (str "y; x = 5;") = Some (Ok None, <[str "x" := (5 # 1)%Q]> empty).
Proof. split; vm_compute; reflexivity. Qed.

(** C2: ["f(1+2);"] parses as a call whose argument is [1+2]. *)
Lemma call_argument_full_expression_counterexample :
  parse_input QBackend.from_str_radix (str "f(1+2);")
  = Some (Ok [StExpression (Call (str "f") (Binary (Number (1 # 1)%Q) Plus (Number (2 # 1)%Q)))]).
Proof. vm_compute; reflexivity. Qed.

Lemma call_argument_is_parenthesised_expression_witness :
  parse_input QBackend.from_str_radix (str "f(1+2);")
    = Some (Ok [StExpression (Call (str "f") (Binary (Number (1 # 1)%Q) Plus (Number (2 # 1)%Q)))])
  /\ parse_input QBackend.from_str_radix (str "sqrt(2 + 3);")
    = Some (Ok [StExpression (Call (str "sqrt") (Binary (Number (2 # 1)%Q) Plus (Number (3 # 1)%Q)))]).
Proof.
  refine (proj2 (call_argument_is_parenthesised_expression Q QBackend.from_str_radix
                   (1 # 1)%Q (2 # 1)%Q (3 # 1)%Q _ _ _)); vm_compute; reflexivity.
Defined.

(** C3: the empty input returns [UnexpectedError]. *)
Lemma unexpected_error_on_empty_input :
  QEvaluator_parse empty (str "") = Some (Err EE_UnexpectedError, empty).
Proof. vm_compute; reflexivity. Qed.

Lemma precedence_climbing_examples_witness :
  parse_input QBackend.from_str_radix (str "2 + 3 * 4;")
    = Some (Ok [StExpression (Binary (Number (2 # 1)%Q) Plus
                                (Binary (Number (3 # 1)%Q) Star (Number (4 # 1)%Q)))])
  /\ parse_input QBackend.from_str_radix (str "2 ^ 3 ^ 2;")
    = Some (Ok [StExpression (Binary (Number (2 # 1)%Q) Caret
                                (Binary (Number (3 # 1)%Q) Caret (Number (2 # 1)%Q)))]).
Proof.
  apply (precedence_climbing_examples Q QBackend.from_str_radix); vm_compute; reflexivity.
Defined.

Lemma numeral_lexes_to_one_number_witness :
  exists l', Lexer_next QBackend.from_str_radix (Lexer_new (str "6.954"))
             = (Some (Ok (TNumber (6954 # 1000)%Q)), l')
             /\ Lexer_next QBackend.from_str_radix l' = (None, None).
Proof.
  apply (numeral_lexes_to_one_number Q QBackend.from_str_radix).
  - exists (str "6"), (str ".954"); split; [split; [discriminate | reflexivity]|].
    split; [reflexivity|]; right; exists (str "954").
    split; [split; [discriminate | reflexivity] | reflexivity].
  - vm_compute; reflexivity.
Defined.

Lemma lexer_halts_after_error_witness :
  (forall l e l', Lexer_next QBackend.from_str_radix l = (Some (Err e), l') ->
     l' = None /\ forall n, lexer_collect QBackend.from_str_radix n l' = [])
  /\ exists l1,
       Lexer_next QBackend.from_str_radix (Lexer_new (str "42 &"))
       = (Some (Ok (TNumber (42 # 1)%Q)), l1)
       /\ Lexer_next QBackend.from_str_radix l1
          = (Some (Err (UnexpectedChar (N_of_ascii "&") 3)), None).
Proof.
  apply (lexer_halts_after_error Q QBackend.from_str_radix); vm_compute; reflexivity.
Defined.

Lemma invalid_assignment_unreachable_witness :
  parse_input QBackend.from_str_radix (str "5 = 3;")
  = Some (Err (PE_UnexpectedToken (TPunctuation Assignment))).
Proof.
  apply (invalid_assignment_unreachable Q QBackend.from_str_radix QBackend.zero
           QBackend.sub QBackend.op_apply QBackend.builtin_call (5 # 1)%Q);
    vm_compute; reflexivity.
Defined.

Lemma environment_mutated_only_by_assignment_witness :
  QEvaluator_parse empty (str "x = 5; x + 1;")
  = Some (Ok (Some (6 # 1)%Q), <[str "x" := (5 # 1)%Q]> empty).
Proof.
  apply (environment_mutated_only_by_assignment Q QBackend.from_str_radix QBackend.zero
           QBackend.sub QBackend.op_apply QBackend.builtin_call (5 # 1)%Q (1 # 1)%Q);
    vm_compute; reflexivity.
Defined.

(* ------------------------------------------------------------------ *)
(** ** Instances of the further properties on the rational backend *)

Abbreviation Qeval_expression :=
  (eval_expression QBackend.zero QBackend.sub QBackend.op_apply QBackend.builtin_call).

Lemma lexer_number_from_numeral_witness :
  exists pre text rest, str "x1 + 2.5" = pre ++ text ++ rest
    /\ numeral text /\ QBackend.from_str_radix text = Some (25 # 10)%Q
    /\ forall c r, rest = c :: r -> is_ascii_digit c = false /\ (c = 46 -> In 46 text).
Proof.
  apply (lexer_number_from_numeral Q QBackend.from_str_radix (str "x1 + 2.5") 10).
  vm_compute; auto.
Defined.

Lemma lexer_identifier_from_input_witness :
  identifier_text (str "x1")
  /\ exists pre rest, str "x1 + 2.5" = pre ++ str "x1" ++ rest
       /\ forall c r, rest = c :: r -> ident_char c = false.
Proof.
  apply (lexer_identifier_from_input Q QBackend.from_str_radix (str "x1 + 2.5") 10).
  vm_compute; auto.
Defined.

Lemma lexer_error_offsets_witness :
  exists pre rest, str "1 + #" = pre ++ 35%N :: rest /\ 4%nat = str_len pre
    /\ unexpected_char 35%N.
Proof.
  apply (lexer_error_offsets Q QBackend.from_str_radix (str "1 + #") 10 (UnexpectedChar 35 4)).
  vm_compute; auto.
Defined.

Lemma whitespace_only_input_witness :
  Lexer_next QBackend.from_str_radix (Lexer_new [32; 10; 9; 32]%N) = (None, None)
  /\ parse_input QBackend.from_str_radix [32; 10; 9; 32]%N = Some (Ok [])
  /\ QEvaluator_parse (<[str "x" := (1 # 1)%Q]> empty) [32; 10; 9; 32]%N
     = Some (Err EE_UnexpectedError, <[str "x" := (1 # 1)%Q]> empty).
Proof.
  apply (whitespace_only_input Q QBackend.from_str_radix QBackend.zero QBackend.sub
           QBackend.op_apply QBackend.builtin_call).
  vm_compute; reflexivity.
Defined.

Lemma first_lexer_error_reported_witness :
  parse_input QBackend.from_str_radix (str "5.;")
    = Some (Err (PE_LexerError (InvalidNumber (str "5.") 2)))
  /\ forall env, QEvaluator_parse env (str "5.;")
       = Some (Err (EE_ParserError (PE_LexerError (InvalidNumber (str "5.") 2))), env).
Proof.
  apply (first_lexer_error_reported Q QBackend.from_str_radix QBackend.zero QBackend.sub
           QBackend.op_apply QBackend.builtin_call (str "5.;") (InvalidNumber (str "5.") 2) None).
  vm_compute; reflexivity.
Defined.

Lemma peek_then_advance_witness :
  exists st', peek _ QBackend.from_str_radix (Parser_new _ (str "x;"))
                = Some (Ok (Some (TIdentifier (str "x"))), st')
    /\ peek _ QBackend.from_str_radix st' = Some (Ok (Some (TIdentifier (str "x"))), st')
    /\ advance _ QBackend.from_str_radix st'
       = Some (Ok (TIdentifier (str "x")), mkPeekable _ None (iter _ st')).
Proof.
  eexists; split; [vm_compute; reflexivity|].
  apply (peek_then_advance Q QBackend.from_str_radix (Parser_new _ (str "x;"))).
  vm_compute; reflexivity.
Defined.

Lemma parser_errors_point_into_input_witness :
  lexer_yields Q QBackend.from_str_radix (str "5 = 3;") (Ok (TPunctuation Assignment))
  /\ lexer_item_in Q QBackend.from_str_radix (str "5 = 3;") (Ok (TPunctuation Assignment)).
Proof.
  apply (parser_errors_point_into_input Q QBackend.from_str_radix (str "5 = 3;")
           (PE_UnexpectedToken (TPunctuation Assignment))).
  vm_compute; reflexivity.
Defined.

Lemma parsed_numbers_are_numerals_witness :
  exists pre text rest, str "x = 2.5;" = pre ++ text ++ rest
    /\ numeral text /\ QBackend.from_str_radix text = Some (25 # 10)%Q.
Proof.
  apply (parsed_numbers_are_numerals Q QBackend.from_str_radix (str "x = 2.5;")
           [StAssignment (str "x") (Number (25 # 10)%Q)]
           (StAssignment (str "x") (Number (25 # 10)%Q)) (25 # 10)%Q).
  - vm_compute; reflexivity.
  - left; reflexivity.
  - left; reflexivity.
Defined.

Lemma parsed_names_are_identifiers_witness :
  identifier_text (str "sqrt") /\ exists pre rest, str "y = sqrt(x);" = pre ++ str "sqrt" ++ rest.
Proof.
  apply (parsed_names_are_identifiers Q QBackend.from_str_radix (str "y = sqrt(x);")
           [StAssignment (str "y") (Call (str "sqrt") (Var (str "x")))]
           (StAssignment (str "y") (Call (str "sqrt") (Var (str "x")))) (str "sqrt")).
  - vm_compute; reflexivity.
  - left; reflexivity.
  - simpl; auto.
Defined.

Lemma eval_expression_reads_only_its_variables_witness :
  Qeval_expression (<[str "x" := (1 # 1)%Q]> empty)
    (Binary (Var (str "x")) Plus (Number (3 # 1)%Q))
  = Qeval_expression (<[str "y" := (2 # 1)%Q]> (<[str "x" := (1 # 1)%Q]> empty))
    (Binary (Var (str "x")) Plus (Number (3 # 1)%Q)).
Proof.
  apply (eval_expression_reads_only_its_variables Q QBackend.zero QBackend.sub
           QBackend.op_apply QBackend.builtin_call).
  intros z [<- | []]; vm_compute; reflexivity.
Defined.

Lemma Evaluator_parse_env_changes_witness :
  let env : gmap (list char) Q := <[str "y" := (1 # 1)%Q]> empty in
  let env' : gmap (list char) Q := <[str "x" := (2 # 1)%Q]> env in
  (forall x, env' !! x <> env !! x ->
     exists statements e, parse_input QBackend.from_str_radix (str "x = 2;") = Some (Ok statements)
       /\ In (StAssignment x e) statements)
  /\ (forall x, env !! x <> None -> env' !! x <> None).
Proof.
  intros env env'.
  apply (Evaluator_parse_env_changes Q QBackend.from_str_radix QBackend.zero QBackend.sub
           QBackend.op_apply QBackend.builtin_call env (str "x = 2;") (Ok None) env').
  vm_compute; reflexivity.
Defined.

Lemma evaluator_name_errors_from_input_witness :
  (empty : gmap (list char) Q) !! str "z" = None /\ identifier_text (str "z")
  /\ exists pre rest, str "1; z + 1;" = pre ++ str "z" ++ rest.
Proof.
  apply (evaluator_name_errors_from_input Q QBackend.from_str_radix QBackend.zero QBackend.sub
           QBackend.op_apply QBackend.builtin_call empty (str "1; z + 1;")
           (EE_UndefinedVariable (str "z")) empty).
  vm_compute; reflexivity.
Defined.

Lemma trailing_dot_invalid_number_witness :
  Lexer_next QBackend.from_str_radix (Some (mkCtx (str " 12.;x") 3%nat (str "7")))
  = (Some (Err (InvalidNumber (str "12.") 7)), None).
Proof.
  exact (proj1 (trailing_dot_invalid_number Q QBackend.from_str_radix)
           (str " ") (str "12") (str ";x") 3%nat (str "7")
           ltac:(reflexivity) ltac:(discriminate) ltac:(reflexivity)
           (fun c r H => ltac:(injection H as <- _; reflexivity))).
Defined.
